(** * The token lifecycle and request gateway of the Spotify MCP server

    A shallow embedding of the utilities module: [loadSpotifyConfig],
    [saveSpotifyConfig], [getAccessToken], [refreshAccessToken],
    [exchangeCodeForToken], [spotifyFetch], [generateRandomString] and the
    callback listener of [authorizeSpotify].

    Conventions of the embedding.
    - A property that may be missing from a JavaScript object ([undefined])
      is an [option]; the values themselves range over the declared
      TypeScript types (strings, integers).
    - The configuration file is kept in decoded form: what [JSON.parse]
      returns on its text, or the message of the error that reading it throws.
    - The platform functions the code calls but does not define
      ([JSON.parse], [JSON.stringify], [Buffer] base64, the percent encoding of
      [URLSearchParams]) are the fields of the [Runtime] interface.
    - Asynchronous functions are computations over a [World] that holds the
      configuration file, the module variable [cachedAccessToken], the clock,
      the remote servers and the log of the HTTP requests sent so far. *)

From Stdlib Require Import ZArith String List Bool Lia Ascii.
From Stdlib Require Import DecimalString DecimalZ DecimalPos.
From Stdlib Require Import QArith Qround.
Import ListNotations.

#[local] Open Scope string_scope.
#[local] Open Scope Z_scope.

(** ** JavaScript values *)

(** [Boolean(s)] for a string-typed property: false on [undefined] and on
    the empty string. *)
Definition truthy_string (s : option string) : bool :=
  match s with
  | Some EmptyString => false
  | Some _ => true
  | None => false
  end.

(** [Boolean(n)] for a number-typed property: false on [undefined] and on 0. *)
Definition truthy_number (n : option Z) : bool :=
  match n with
  | Some n => negb (n =? 0)
  | None => false
  end.

(** [`${s}`] for a string-typed property. *)
Definition interpolate (s : option string) : string :=
  match s with
  | Some s => s
  | None => "undefined"
  end.

(** The double quote character, as a string. *)
Definition dq : string := String (ascii_of_nat 34) EmptyString.

(** [String(n)] for an integer [n] with [|n| < 1e21], which JavaScript
    prints with all its digits; from [1e21] on it prints an exponent. The
    numbers printed here are far below: HTTP status codes, exit codes, item
    counts, volumes, and the minutes and seconds of a duration. *)
Definition String_of_number (n : Z) : string :=
  NilZero.string_of_int (Z.to_int n).

(** The token endpoint's JSON as the code reads it, [const data = await
    response.json()]: the three properties of [data], each possibly
    missing. *)
Record TokenData := {
  data_access_token : option string;
  data_refresh_token : option string;
  data_expires_in : option Z
}.

(** What the code reads of [new URL(..)] for the redirect URI. *)
Record URL := {
  hostname : string;
  port : string;
  pathname : string
}.

(** ** The runtime interface *)

Class Runtime := {
  (** decoded JSON values: the [T] of [spotifyFetch<T>] *)
  json : Type;
  (** request bodies, [Record<string, unknown>]: objects, which are truthy *)
  object : Type;
  (** [JSON.parse]: [inl msg] when it throws a [SyntaxError] with message [msg] *)
  JSON_parse : string -> string + json;
  (** [JSON.parse] of a token endpoint's body, read at the type [TokenData]:
      [inl msg] when decoding it or reading its properties throws *)
  JSON_token : string -> string + TokenData;
  (** [JSON.stringify] of a request body *)
  JSON_stringify : object -> string;
  (** [Buffer.from(str).toString('base64')] *)
  Buffer_base64 : string -> string;
  (** the application/x-www-form-urlencoded percent encoding of one name or
      value, as [URLSearchParams.prototype.toString] applies it *)
  urlencode : string -> string;
  (** [new URL(s)]: [inl msg] when it throws a [TypeError] *)
  new_URL : string -> string + URL;
  (** [path.join(__dirname, '../spotify-config.json')] *)
  CONFIG_FILE : string
}.

(** ** Data model *)

(** [interface SpotifyConfig]. The three required properties are options
    too: the file may lack them, and [loadSpotifyConfig] tests for that. *)
Record SpotifyConfig := {
  clientId : option string;
  clientSecret : option string;
  redirectUri : option string;
  accessToken : option string;
  refreshToken : option string;
  expiresAt : option Z
}.

Definition set_accessToken (v : option string) (c : SpotifyConfig) : SpotifyConfig :=
  {| clientId := clientId c; clientSecret := clientSecret c;
     redirectUri := redirectUri c; accessToken := v;
     refreshToken := refreshToken c; expiresAt := expiresAt c |}.

Definition set_refreshToken (v : option string) (c : SpotifyConfig) : SpotifyConfig :=
  {| clientId := clientId c; clientSecret := clientSecret c;
     redirectUri := redirectUri c; accessToken := accessToken c;
     refreshToken := v; expiresAt := expiresAt c |}.

Definition set_expiresAt (v : option Z) (c : SpotifyConfig) : SpotifyConfig :=
  {| clientId := clientId c; clientSecret := clientSecret c;
     redirectUri := redirectUri c; accessToken := accessToken c;
     refreshToken := refreshToken c; expiresAt := v |}.

(** The configuration file when it exists: text on which
    [JSON.parse(fs.readFileSync(..))] throws an error with message [msg], or
    text that decodes to a configuration object. *)
Inductive ConfigFile :=
| Malformed (msg : string)
| Holds (config : SpotifyConfig).

(** The errors the module throws, one constructor per [throw] site, and
    [RuntimeError] for those the platform raises ([SyntaxError] of a JSON
    decoder, [TypeError] of [fetch], an [error] event of the HTTP server).
    [Exit] stands for [process.exit(code)], which ends the process. *)
Inductive Error :=
| RuntimeError (msg : string)
| ConfigMissing
| ConfigIncomplete
| ConfigInvalid (msg : string)
| Unauthenticated
| NoRefreshToken
| RefreshRejected (errorData : string)
| RefreshFailed
| ExchangeRejected (errorData : string)
| ApiError (status : Z) (errorText : string)
| AuthorizationDenied (error : string)
| StateMismatch
| MissingCode
| Exit (code : Z).

(** [error.message] *)
Definition message `{Runtime} (e : Error) : string :=
  match e with
  | RuntimeError msg => msg
  | ConfigMissing =>
      "Spotify configuration file not found at " ++ CONFIG_FILE
      ++ ". Please create one with clientId, clientSecret, and redirectUri."
  | ConfigIncomplete =>
      "Spotify configuration must include clientId, clientSecret, and redirectUri."
  | ConfigInvalid msg => "Failed to parse Spotify configuration: " ++ msg
  | Unauthenticated =>
      "No access token available. Please run " ++ dq ++ "npm run auth" ++ dq
      ++ " to authenticate."
  | NoRefreshToken => "No refresh token available"
  | RefreshRejected errorData => "Failed to refresh access token: " ++ errorData
  | RefreshFailed =>
      "Failed to refresh access token. Please run " ++ dq ++ "npm run auth" ++ dq
      ++ " to re-authenticate."
  | ExchangeRejected errorData => "Failed to exchange code for token: " ++ errorData
  | ApiError status errorText =>
      "Spotify API error (" ++ String_of_number status ++ "): " ++ errorText
  | AuthorizationDenied error => "Authorization failed: " ++ error
  | StateMismatch => "State mismatch"
  | MissingCode => "No authorization code received"
  | Exit code => "process.exit(" ++ String_of_number code ++ ")"
  end.

(** ** HTTP *)

Inductive Method := GET | POST | PUT | DELETE.

(** The [body] option of [fetch]: [undefined], a string, or a
    [URLSearchParams] object (its name/value pairs in order). *)
Inductive RequestBody :=
| NoBody
| TextBody (s : string)
| FormBody (params : list (string * string)).

(** One call of [fetch(url, {method, headers, body})]. [headers] is the
    object literal, its properties in insertion order. *)
Record Request := {
  url : string;
  method : Method;
  headers : list (string * string);
  body : RequestBody
}.

(** What the code reads of a [Response]: [status] and [await text()]. *)
Record Response := {
  status : Z;
  text : string
}.

(** [response.ok]: the status is in the range 200-299. *)
Definition ok (r : Response) : bool :=
  (200 <=? status r) && (status r <=? 299).

(** The outcome of awaiting [fetch]: the promise rejects (no response at
    all) or resolves to a response. *)
Inductive Reply :=
| Rejects (msg : string)
| Resolves (r : Response).

(** ** The world and its computations *)

Record World := {
  (** [spotify-config.json]: [None] when [fs.existsSync] is false *)
  file : option ConfigFile;
  (** [let cachedAccessToken: string | null] *)
  cachedAccessToken : option string;
  (** [Date.now()] *)
  now : Z;
  (** the remote servers: what [fetch] yields for a request *)
  net : Request -> Reply;
  (** the requests passed to [fetch] so far, oldest first *)
  sent : list Request
}.

Definition write_file (f : ConfigFile) (w : World) : World :=
  {| file := Some f; cachedAccessToken := cachedAccessToken w; now := now w;
     net := net w; sent := sent w |}.

Definition write_cache (t : option string) (w : World) : World :=
  {| file := file w; cachedAccessToken := t; now := now w;
     net := net w; sent := sent w |}.

Definition log_request (r : Request) (w : World) : World :=
  {| file := file w; cachedAccessToken := cachedAccessToken w; now := now w;
     net := net w; sent := sent w ++ [r] |}.

Inductive Result (A : Type) :=
| Ok (a : A)
| Throw (e : Error).
Arguments Ok {A} a.
Arguments Throw {A} e.

(** A computation runs in a world and leaves a world, also when it throws. *)
Definition M (A : Type) : Type := World -> Result A * World.

Definition ret {A} (a : A) : M A := fun w => (Ok a, w).

Definition throw {A} (e : Error) : M A := fun w => (Throw e, w).

Definition bind {A B} (m : M A) (k : A -> M B) : M B :=
  fun w =>
    match m w with
    | (Ok a, w') => k a w'
    | (Throw e, w') => (Throw e, w')
    end.

(** [try { m } catch (error) { handler error }] *)
Definition try_catch {A} (m : M A) (handler : Error -> M A) : M A :=
  fun w =>
    match m w with
    | (Ok a, w') => (Ok a, w')
    | (Throw e, w') => handler e w'
    end.

(** A function that returns or throws without touching the world. *)
Definition lift {A} (r : Result A) : M A := fun w => (r, w).

Notation "x <- m ;; k" := (bind m (fun x => k))
  (at level 61, m at next level, right associativity).
Notation "m ;;; k" := (bind m (fun _ => k))
  (at level 61, right associativity).

Definition Date_now : M Z := fun w => (Ok (now w), w).

(** [cachedAccessToken = t] *)
Definition assign_cachedAccessToken (t : option string) : M unit :=
  fun w => (Ok tt, write_cache t w).

(** [cachedAccessToken], read *)
Definition read_cachedAccessToken : M (option string) :=
  fun w => (Ok (cachedAccessToken w), w).

(** [await fetch(..)]: the request goes out, the promise rejects or
    resolves. *)
Definition fetch (r : Request) : M Response :=
  fun w =>
    match net w r with
    | Rejects msg => (Throw (RuntimeError msg), log_request r w)
    | Resolves resp => (Ok resp, log_request r w)
    end.

Section Utils.

Context `{RT : Runtime}.

(** ** [loadSpotifyConfig] and [saveSpotifyConfig] *)

(** The body of the [try] block of [loadSpotifyConfig]. *)
Definition parse_config (f : ConfigFile) : Result SpotifyConfig :=
  match f with
  | Malformed msg => Throw (RuntimeError msg)
  | Holds config =>
      if negb (truthy_string (clientId config)
               && truthy_string (clientSecret config)
               && truthy_string (redirectUri config))
      then Throw ConfigIncomplete
      else Ok config
  end.

Definition loadSpotifyConfig : M SpotifyConfig :=
  fun w =>
    match file w with
    | None => (Throw ConfigMissing, w)
    | Some f =>
        match parse_config f with
        | Ok config => (Ok config, w)
        | Throw error => (Throw (ConfigInvalid (message error)), w)
        end
    end.

Definition saveSpotifyConfig (config : SpotifyConfig) : M unit :=
  fun w => (Ok tt, write_file (Holds config) w).

(** ** The token endpoint *)

Definition tokenUrl : string := "https://accounts.spotify.com/api/token".

(** [`Basic ${base64Encode(`${config.clientId}:${config.clientSecret}`)}`] *)
Definition authHeader (config : SpotifyConfig) : string :=
  "Basic " ++ Buffer_base64 (interpolate (clientId config) ++ ":"
                             ++ interpolate (clientSecret config)).

(** [await response.json()] *)
Definition response_json (r : Response) : Result TokenData :=
  match JSON_token (text r) with
  | inl msg => Throw (RuntimeError msg)
  | inr data => Ok data
  end.

(** [data.expires_in || 3600] *)
Definition or_number (n : option Z) (default : Z) : Z :=
  match n with
  | Some v => if v =? 0 then default else v
  | None => default
  end.

(** What [exchangeCodeForToken] and [refreshAccessToken] return; the latter
    returns no [refresh_token]. *)
Record Tokens := {
  access_token : option string;
  refresh_token : option string;
  expires_in : Z
}.

(** The request [refreshAccessToken] sends. *)
Definition refresh_request (config : SpotifyConfig) : Request :=
  {| url := tokenUrl;
     method := POST;
     headers := [("Authorization", authHeader config);
                 ("Content-Type", "application/x-www-form-urlencoded")];
     body := FormBody [("grant_type", "refresh_token");
                       ("refresh_token", interpolate (refreshToken config))] |}.

Definition refreshAccessToken (config : SpotifyConfig) : M Tokens :=
  if negb (truthy_string (refreshToken config)) then throw NoRefreshToken
  else
    response <- fetch (refresh_request config) ;;
    if negb (ok response) then throw (RefreshRejected (text response))
    else
      data <- lift (response_json response) ;;
      ret {| access_token := data_access_token data;
             refresh_token := None;
             expires_in := or_number (data_expires_in data) 3600 |}.

(** [refreshAccessToken] from the moment its [fetch] settles: from the
    reply to the returned tokens. *)
Definition refresh_result (reply : Reply) : Result Tokens :=
  match reply with
  | Rejects msg => Throw (RuntimeError msg)
  | Resolves response =>
      if negb (ok response) then Throw (RefreshRejected (text response))
      else
        match response_json response with
        | Throw e => Throw e
        | Ok data =>
            Ok {| access_token := data_access_token data;
                  refresh_token := None;
                  expires_in := or_number (data_expires_in data) 3600 |}
        end
  end.

(** The request [exchangeCodeForToken] sends. *)
Definition exchange_request (code : string) (config : SpotifyConfig) : Request :=
  {| url := tokenUrl;
     method := POST;
     headers := [("Authorization", authHeader config);
                 ("Content-Type", "application/x-www-form-urlencoded")];
     body := FormBody [("grant_type", "authorization_code");
                       ("code", code);
                       ("redirect_uri", interpolate (redirectUri config))] |}.

Definition exchangeCodeForToken (code : string) (config : SpotifyConfig)
  : M Tokens :=
  response <- fetch (exchange_request code config) ;;
  if negb (ok response) then throw (ExchangeRejected (text response))
  else
    data <- lift (response_json response) ;;
    ret {| access_token := data_access_token data;
           refresh_token := data_refresh_token data;
           expires_in := or_number (data_expires_in data) 3600 |}.

(** [exchangeCodeForToken] from the moment its [fetch] settles: from the
    reply to the returned tokens. The request handler of [authorizeSpotify]
    is suspended in between, see [on_request] and [on_exchanged]. *)
Definition exchange_result (reply : Reply) : Result Tokens :=
  match reply with
  | Rejects msg => Throw (RuntimeError msg)
  | Resolves response =>
      if negb (ok response) then Throw (ExchangeRejected (text response))
      else
        match response_json response with
        | Throw e => Throw e
        | Ok data =>
            Ok {| access_token := data_access_token data;
                  refresh_token := data_refresh_token data;
                  expires_in := or_number (data_expires_in data) 3600 |}
        end
  end.

(** ** [getAccessToken] *)

(** [!config.expiresAt || config.expiresAt <= now] *)
Definition shouldRefresh (config : SpotifyConfig) (now : Z) : bool :=
  negb (truthy_number (expiresAt config))
  || match expiresAt config with
     | Some e => e <=? now
     | None => false
     end.

(** The [try] block of [getAccessToken]; it returns the updated [config]
    object. *)
Definition refresh_and_save (config : SpotifyConfig) (now : Z) : M SpotifyConfig :=
  tokens <- refreshAccessToken config ;;
  let config := set_accessToken (access_token tokens) config in
  let config := set_expiresAt (Some (now + expires_in tokens * 1000)) config in
  saveSpotifyConfig config ;;;
  assign_cachedAccessToken None ;;;
  ret config.

Definition getAccessToken : M (option string) :=
  config <- loadSpotifyConfig ;;
  if truthy_string (accessToken config) && truthy_string (refreshToken config)
  then
    now <- Date_now ;;
    config <- (if shouldRefresh config now
               then try_catch (refresh_and_save config now)
                              (fun _ => throw RefreshFailed)
               else ret config) ;;
    assign_cachedAccessToken (accessToken config) ;;;
    read_cachedAccessToken
  else throw Unauthenticated.

(** ** [spotifyFetch] *)

Definition SPOTIFY_API_BASE : string := "https://api.spotify.com/v1".

(** A value of [params]: [string | number]. *)
Inductive ParamValue :=
| PString (s : string)
| PNumber (n : Z).

(** [String(value)] *)
Definition String_of_param (v : ParamValue) : string :=
  match v with
  | PString s => s
  | PNumber n => String_of_number n
  end.

(** [interface SpotifyFetchOptions]; [params] is the object's entries as
    [Object.entries] lists them. *)
Record SpotifyFetchOptions := {
  opt_method : option Method;
  opt_body : option object;
  opt_params : option (list (string * option ParamValue))
}.

(** The loop over [Object.entries(params)]: the pairs appended to
    [searchParams]. *)
Fixpoint searchParams (entries : list (string * option ParamValue))
  : list (string * string) :=
  match entries with
  | [] => []
  | (key, Some value) :: rest => (key, String_of_param value) :: searchParams rest
  | (key, None) :: rest => searchParams rest
  end.

(** [URLSearchParams.prototype.toString] *)
Definition URLSearchParams_toString (pairs : list (string * string)) : string :=
  String.concat "&"
    (map (fun p => urlencode (fst p) ++ "=" ++ urlencode (snd p)) pairs).

(** [if (s)] for a string. *)
Definition nonempty (s : string) : bool :=
  match s with
  | EmptyString => false
  | String _ _ => true
  end.

(** The [url] that [spotifyFetch] builds. *)
Definition request_url (endpoint : string)
    (params : option (list (string * option ParamValue))) : string :=
  let url := SPOTIFY_API_BASE ++ endpoint in
  match params with
  | Some entries =>
      let queryString := URLSearchParams_toString (searchParams entries) in
      if nonempty queryString then url ++ "?" ++ queryString else url
  | None => url
  end.

(** The [headers] object that [spotifyFetch] builds. *)
Definition request_headers (accessToken : option string) (body : option object)
  : list (string * string) :=
  let headers := [("Authorization", "Bearer " ++ interpolate accessToken)] in
  match body with
  | Some _ => headers ++ [("Content-Type", "application/json")]
  | None => headers
  end.

(** The request [spotifyFetch] passes to [fetch]. *)
Definition api_request (accessToken : option string) (endpoint : string)
    (options : SpotifyFetchOptions) : Request :=
  {| url := request_url endpoint (opt_params options);
     method := match opt_method options with Some m => m | None => GET end;
     headers := request_headers accessToken (opt_body options);
     body := match opt_body options with
             | Some b => TextBody (JSON_stringify b)
             | None => NoBody
             end |}.

(** [spotifyFetch] after its [fetch]: [None] is [undefined]. *)
Definition read_response (response : Response) : Result (option json) :=
  if negb (ok response)
  then Throw (ApiError (status response) (text response))
  else
    if negb (nonempty (text response)) then Ok None
    else
      match JSON_parse (text response) with
      | inr v => Ok (Some v)
      | inl _ => Ok None
      end.

Definition spotifyFetch (endpoint : string) (options : SpotifyFetchOptions)
  : M (option json) :=
  accessToken <- getAccessToken ;;
  response <- fetch (api_request accessToken endpoint options) ;;
  lift (read_response response).

(** ** [generateRandomString] *)

Definition alphabet : string :=
  "ABCDEFGHIJKLMNOPQRSTUVWXYZabcdefghijklmnopqrstuvwxyz0123456789".

(** [alphabet.charAt(i)] *)
Definition charAt (s : string) (i : nat) : string :=
  match String.get i s with
  | Some c => String c EmptyString
  | None => EmptyString
  end.

(** [generateRandomString(length)]; [random i] is the byte that
    [crypto.getRandomValues] wrote at index [i] of the array. *)
Definition generateRandomString (length : nat) (random : nat -> N) : string :=
  String.concat ""
    (map (fun i => charAt alphabet (N.to_nat (random i mod 62))) (seq 0 length)).

(** ** [authorizeSpotify] *)

Definition scopes : list string :=
  ["user-read-private"; "user-read-email"; "user-read-playback-state";
   "user-modify-playback-state"; "user-read-currently-playing";
   "playlist-read-private"; "playlist-modify-private";
   "playlist-modify-public"; "user-library-read"; "user-library-modify";
   "user-read-recently-played"; "user-modify-playback-state";
   "user-read-playback-state"; "user-read-currently-playing"].

(** [authPromise] *)
Inductive Promise :=
| Pending
| Fulfilled
| Rejected (e : Error).

(** [resolve()] and [reject(e)]: only a pending promise changes. *)
Definition settle (outcome : Promise) (p : Promise) : Promise :=
  match p with
  | Pending => outcome
  | _ => p
  end.

(** The HTTP server: created, listening after the callback of [listen],
    closed after [server.close()]. *)
Inductive Server :=
| Starting
| Listening
| Closed.

(** The bodies passed to [res.end]. *)
Inductive Page :=
| NoUrlProvided
| AuthenticationFailed
| StateVerificationFailed
| NoCodeReceived
| AuthenticationSuccessful
| TokenExchangeFailed
| NotFound.

(** What the flow does, in program order. [RejectOnError] is the [reject]
    of the server's [error] listener, [Reject] one of the request handler. *)
Inductive Action :=
| Open (url : string)
| Respond (page : Page)
| Close
| Resolve
| Reject (e : Error)
| RejectOnError (e : Error).

(** [reqUrl]: an incoming request's URL, parsed. *)
Record RequestUrl := {
  req_pathname : string;
  req_searchParams : list (string * string)
}.

(** [searchParams.get(name)]: the first value of that name, or [null]. *)
Fixpoint get (name : string) (pairs : list (string * string)) : option string :=
  match pairs with
  | [] => None
  | (n, v) :: rest => if String.eqb n name then Some v else get name rest
  end.

(** The state of one call of [authorizeSpotify]: the variables the request
    handler closes over, the port passed to [listen], the server, the promise, the handlers suspended at
    [await exchangeCodeForToken(code, config)] (their codes, oldest first)
    and the actions taken so far. *)
Record Flow := {
  config : SpotifyConfig;
  state : string;
  listenPort : string;
  callbackPath : string;
  authorizationUrl : string;
  server : Server;
  authPromise : Promise;
  awaiting : list string;
  actions : list Action
}.

Definition set_config (c : SpotifyConfig) (f : Flow) : Flow :=
  {| config := c; state := state f; listenPort := listenPort f;
     callbackPath := callbackPath f;
     authorizationUrl := authorizationUrl f; server := server f;
     authPromise := authPromise f; awaiting := awaiting f;
     actions := actions f |}.

Definition set_server (s : Server) (f : Flow) : Flow :=
  {| config := config f; state := state f; listenPort := listenPort f;
     callbackPath := callbackPath f;
     authorizationUrl := authorizationUrl f; server := s;
     authPromise := authPromise f; awaiting := awaiting f;
     actions := actions f |}.

Definition set_authPromise (p : Promise) (f : Flow) : Flow :=
  {| config := config f; state := state f; listenPort := listenPort f;
     callbackPath := callbackPath f;
     authorizationUrl := authorizationUrl f; server := server f;
     authPromise := p; awaiting := awaiting f;
     actions := actions f |}.

Definition set_awaiting (l : list string) (f : Flow) : Flow :=
  {| config := config f; state := state f; listenPort := listenPort f;
     callbackPath := callbackPath f;
     authorizationUrl := authorizationUrl f; server := server f;
     authPromise := authPromise f; awaiting := l;
     actions := actions f |}.

Definition log_action (a : Action) (f : Flow) : Flow :=
  {| config := config f; state := state f; listenPort := listenPort f;
     callbackPath := callbackPath f;
     authorizationUrl := authorizationUrl f; server := server f;
     authPromise := authPromise f; awaiting := awaiting f;
     actions := actions f ++ [a] |}.

(** [res.end(page)] *)
Definition res_end (page : Page) : Flow -> Flow := log_action (Respond page).

(** [server.close()] *)
Definition server_close (f : Flow) : Flow := set_server Closed (log_action Close f).

(** [resolve()] *)
Definition resolve (f : Flow) : Flow :=
  set_authPromise (settle Fulfilled (authPromise f)) (log_action Resolve f).

(** [reject(e)] in the request handler *)
Definition reject (e : Error) (f : Flow) : Flow :=
  set_authPromise (settle (Rejected e) (authPromise f)) (log_action (Reject e) f).

(** [Date.now()] moves on. *)
Definition advance (ms : N) (w : World) : World :=
  {| file := file w; cachedAccessToken := cachedAccessToken w;
     now := now w + Z.of_N ms; net := net w; sent := sent w |}.

(** [authorizationUrl] *)
Definition authorization_url (config : SpotifyConfig) (state : string) : string :=
  let authParams :=
    [("client_id", interpolate (clientId config));
     ("response_type", "code");
     ("redirect_uri", interpolate (redirectUri config));
     ("scope", String.concat " " scopes);
     ("state", state);
     ("show_dialog", "false")] in
  "https://accounts.spotify.com/authorize?" ++ URLSearchParams_toString authParams.

(** [authorizeSpotify] up to [new Promise]: the flow it sets up. *)
Definition authorizeSpotify (random : nat -> N) : M Flow :=
  config <- loadSpotifyConfig ;;
  match new_URL (interpolate (redirectUri config)) with
  | inl msg => throw (RuntimeError msg)
  | inr redirectURL =>
      if negb (String.eqb (hostname redirectURL) "localhost")
         && negb (String.eqb (hostname redirectURL) "127.0.0.1")
      then throw (Exit 1)
      else
        let port :=
          if nonempty (port redirectURL) then port redirectURL else "80" in
        let callbackPath :=
          if nonempty (pathname redirectURL) then pathname redirectURL
          else "/callback" in
        let state := generateRandomString 16 random in
        ret {| config := config;
               state := state;
               listenPort := port;
               callbackPath := callbackPath;
               authorizationUrl := authorization_url config state;
               server := Starting;
               authPromise := Pending;
               awaiting := [];
               actions := [] |}
  end.

(** The request handler up to its [await]: [req_url] is [None] when
    [req.url] is missing. *)
Definition on_request (req_url : option RequestUrl) (f : Flow) (w : World)
  : Flow * World :=
  match req_url with
  | None => (res_end NoUrlProvided f, w)
  | Some reqUrl =>
      if String.eqb (req_pathname reqUrl) (callbackPath f) then
        let code := get "code" (req_searchParams reqUrl) in
        let returnedState := get "state" (req_searchParams reqUrl) in
        let error := get "error" (req_searchParams reqUrl) in
        if truthy_string error then
          (reject (AuthorizationDenied (interpolate error))
             (server_close (res_end AuthenticationFailed f)), w)
        else if negb (match returnedState with
                      | Some s => String.eqb s (state f)
                      | None => false
                      end) then
          (reject StateMismatch
             (server_close (res_end StateVerificationFailed f)), w)
        else if negb (truthy_string code) then
          (reject MissingCode (server_close (res_end NoCodeReceived f)), w)
        else
          (set_awaiting (awaiting f ++ [interpolate code]) f,
           log_request (exchange_request (interpolate code) (config f)) w)
      else (res_end NotFound f, w)
  end.

(** The request handler from its [await] on: the exchange for [code]
    settled with [reply]. *)
Definition on_exchanged (reply : Reply) (f : Flow) (w : World) : Flow * World :=
  match exchange_result reply with
  | Ok tokens =>
      let config := set_accessToken (access_token tokens) (config f) in
      let config := set_refreshToken (refresh_token tokens) config in
      let config := set_expiresAt (Some (now w + expires_in tokens * 1000)) config in
      (resolve (server_close (res_end AuthenticationSuccessful (set_config config f))),
       write_file (Holds config) w)
  | Throw error =>
      (reject error (server_close (res_end TokenExchangeFailed f)), w)
  end.

(** [l] without its [k]-th element. *)
Fixpoint remove_nth {A} (k : nat) (l : list A) : list A :=
  match k, l with
  | _, [] => []
  | O, _ :: rest => rest
  | S k, x :: rest => x :: remove_nth k rest
  end.

(** What happens to a running flow: the callback of [listen] runs, a
    request reaches the request handler, the token exchange of the [k]-th
    suspended handler settles, the server emits [error], time passes.

    [server.close()] stops the server from accepting new connections and
    keeps the connections it has: a request that arrives on a connection kept
    alive is still handled. [Incoming] is a request that reaches the handler,
    before or after [server.close()]; a request that is refused is no event. *)
Inductive Event :=
| Bound
| Incoming (req_url : option RequestUrl)
| Exchanged (k : nat) (reply : Reply)
| ServerError (msg : string)
| Tick (ms : N).

Definition step (ev : Event) (f : Flow) (w : World) : Flow * World :=
  match ev with
  | Bound =>
      match server f with
      | Starting => (log_action (Open (authorizationUrl f)) (set_server Listening f), w)
      | _ => (f, w)
      end
  | Incoming req_url =>
      match server f with
      | Starting => (f, w)
      | _ => on_request req_url f w
      end
  | Exchanged k reply =>
      match nth_error (awaiting f) k with
      | Some _ => on_exchanged reply (set_awaiting (remove_nth k (awaiting f)) f) w
      | None => (f, w)
      end
  | ServerError msg =>
      (set_authPromise (settle (Rejected (RuntimeError msg)) (authPromise f))
         (log_action (RejectOnError (RuntimeError msg)) f), w)
  | Tick ms => (f, advance ms w)
  end.

Fixpoint run (events : list Event) (f : Flow) (w : World) : Flow * World :=
  match events with
  | [] => (f, w)
  | ev :: rest => let (f', w') := step ev f w in run rest f' w'
  end.

(** ** [formatDuration] *)

(** [padString] repeated and cut to [n] characters; [rest] is what is
    left of the current repetition. *)
Fixpoint padding (n : nat) (padString rest : string) : string :=
  match n with
  | O => EmptyString
  | S n' =>
      match rest with
      | String c rest' => String c (padding n' padString rest')
      | EmptyString =>
          match padString with
          | String c rest' => String c (padding n' padString rest')
          | EmptyString => EmptyString
          end
      end
  end.

(** [s.padStart(targetLength, padString)] *)
Definition padStart (s : string) (targetLength : nat) (padString : string) : string :=
  if (targetLength <=? String.length s)%nat then s
  else padding (targetLength - String.length s) padString padString ++ s.

(** [x.toFixed(0)] for [x = thousandths / 1000]: the integer nearest to
    [x], the larger one of two in absolute value, behind the sign of [x]. *)
Definition toFixed0 (thousandths : Z) : string :=
  if thousandths <? 0
  then "-" ++ String_of_number ((- thousandths + 500) / 1000)
  else String_of_number ((thousandths + 500) / 1000).

(** [Number.MAX_SAFE_INTEGER]: up to it every integer is a JavaScript
    number. *)
Definition MAX_SAFE_INTEGER : Z := 2 ^ 53 - 1.

(** [formatDuration(ms)] for a number of milliseconds that is an integer
    and at most [MAX_SAFE_INTEGER] in absolute value. [ms % 60000] is the
    remainder with the sign of [ms], which is exact; on these numbers the
    rounded quotient [ms / 60000] has the floor of the exact one, so that
    [Math.floor(ms / 60000)] is the floor division, and dividing the remainder
    by 1000 rounds to the same integer as the exact quotient. Beyond
    [MAX_SAFE_INTEGER] the code computes on rounded numbers and differs. *)
Definition formatDuration (ms : Z) : string :=
  let minutes := ms / 60000 in
  let seconds := toFixed0 (Z.rem ms 60000) in
  String_of_number minutes ++ ":" ++ padStart seconds 2 "0".

(** ** [handleSpotifyRequest] *)

(** [s.includes(sub)] *)
Fixpoint includes (s sub : string) : bool :=
  String.prefix sub s
  || match s with
     | EmptyString => false
     | String _ rest => includes rest sub
     end.

(** [handleSpotifyRequest(action)]: [None] is [undefined]. *)
Definition handleSpotifyRequest {T : Type} (action : M T) : M (option T) :=
  try_catch (result <- action ;; ret (Some result))
    (fun error =>
       let errorMessage := message error in
       if includes errorMessage "Unexpected token"
          || includes errorMessage "Unexpected non-whitespace character"
          || includes errorMessage "Exponent part is missing a number in JSON"
       then ret None
       else throw error).

End Utils.

(** * The tool handlers

    The handlers of the playback tools and of the album library tool that
    do not read the response of [spotifyFetch]. A handler returns the one text
    item of its [content], or throws. *)

(** A value in an object literal that a handler passes as a request body. *)
Inductive Literal :=
| LString (s : string)
| LNumber (n : Z)
| LBoolean (b : bool)
| LStrings (l : list string)
| LUndefined.

(** [{ content: [{ type: 'text', text, isError }] }] *)
Record ToolResult := {
  result_text : string;
  result_isError : bool
}.

(** [z.enum(['track', 'album', 'artist', 'playlist'])] *)
Inductive ItemType := track | album | artist | playlist.

Definition ItemType_string (t : ItemType) : string :=
  match t with
  | track => "track"
  | album => "album"
  | artist => "artist"
  | playlist => "playlist"
  end.

(** The arguments of [playMusic] and [addToQueue]. *)
Record PlayArgs := {
  arg_uri : option string;
  arg_type : option ItemType;
  arg_id : option string;
  arg_deviceId : option string
}.


(** [Math.round(x)]: the nearest integer, the larger one of two. *)
Definition Math_round (x : Q) : Z := Qfloor (x + (1 # 2)).

Section Tools.

Context `{RT : Runtime}.

(** The object literal [{ k1: v1, ... }] as a request body. *)
Variable object_literal : list (string * Literal) -> object.

(** A text item without [isError]. *)
Definition text_result (text : string) : ToolResult :=
  {| result_text := text; result_isError := false |}.

(** [deviceId ? { device_id: deviceId } : {}], as entries *)
Definition device_entries (deviceId : option string)
  : list (string * option ParamValue) :=
  if truthy_string deviceId
  then [("device_id", Some (PString (interpolate deviceId)))]
  else [].

(** [deviceId ? { device_id: deviceId } : undefined] *)
Definition device_params (deviceId : option string)
  : option (list (string * option ParamValue)) :=
  if truthy_string deviceId
  then Some [("device_id", Some (PString (interpolate deviceId)))]
  else None.

(** [`spotify:${type}:${id}`] when there is no usable [uri] and both
    [type] and [id] are given, [uri] otherwise. *)
Definition spotifyUri_of (args : PlayArgs) : option string :=
  if negb (truthy_string (arg_uri args))
     && match arg_type args with Some _ => true | None => false end
     && truthy_string (arg_id args)
  then Some ("spotify:"
             ++ match arg_type args with
                | Some t => ItemType_string t
                | None => "undefined"
                end
             ++ ":" ++ interpolate (arg_id args))
  else arg_uri args.

Definition missing_uri_result : ToolResult :=
  {| result_text := "Error: Must provide either a URI or both a type and ID";
     result_isError := true |}.

(** The handler of [playMusic]. *)
Definition playMusic (args : PlayArgs) : M ToolResult :=
  if negb (truthy_string (arg_uri args)
           || (match arg_type args with Some _ => true | None => false end
               && truthy_string (arg_id args)))
  then ret missing_uri_result
  else
    let spotifyUri := spotifyUri_of args in
    let body :=
      if truthy_string spotifyUri then
        match arg_type args with
        | Some track => [("uris", LStrings [interpolate spotifyUri])]
        | _ => [("context_uri", LString (interpolate spotifyUri))]
        end
      else [] in
    spotifyFetch "/me/player/play"
      {| opt_method := Some PUT;
         opt_body := if (0 <? List.length body)%nat
                     then Some (object_literal body) else None;
         opt_params := device_params (arg_deviceId args) |} ;;;
    ret (text_result
           ("Started playing "
            ++ match arg_type args with
               | Some t => ItemType_string t
               | None => "music"
               end
            ++ " "
            ++ (if truthy_string (arg_id args)
                then "(ID: " ++ interpolate (arg_id args) ++ ")"
                else ""))).

(** The handlers of [pausePlayback], [skipToNext], [skipToPrevious] and
    [resumePlayback]. *)
Definition pausePlayback (deviceId : option string) : M ToolResult :=
  spotifyFetch "/me/player/pause"
    {| opt_method := Some PUT; opt_body := None;
       opt_params := device_params deviceId |} ;;;
  ret (text_result "Playback paused").

Definition skipToNext (deviceId : option string) : M ToolResult :=
  spotifyFetch "/me/player/next"
    {| opt_method := Some POST; opt_body := None;
       opt_params := device_params deviceId |} ;;;
  ret (text_result "Skipped to next track").

Definition skipToPrevious (deviceId : option string) : M ToolResult :=
  spotifyFetch "/me/player/previous"
    {| opt_method := Some POST; opt_body := None;
       opt_params := device_params deviceId |} ;;;
  ret (text_result "Skipped to previous track").

Definition resumePlayback (deviceId : option string) : M ToolResult :=
  spotifyFetch "/me/player/play"
    {| opt_method := Some PUT; opt_body := None;
       opt_params := device_params deviceId |} ;;;
  ret (text_result "Playback resumed").

(** The handler of [addToQueue]. *)
Definition addToQueue (args : PlayArgs) : M ToolResult :=
  let spotifyUri := spotifyUri_of args in
  if negb (truthy_string spotifyUri) then ret missing_uri_result
  else
    spotifyFetch "/me/player/queue"
      {| opt_method := Some POST;
         opt_body := None;
         opt_params :=
           Some (("uri", Some (PString (interpolate spotifyUri)))
                 :: device_entries (arg_deviceId args)) |} ;;;
    ret (text_result ("Added item " ++ interpolate spotifyUri ++ " to queue")).

(** The handler of [setVolume]; [volumePercent] is any number. *)
Definition setVolume (volumePercent : Q) (deviceId : option string) : M ToolResult :=
  try_catch
    (spotifyFetch "/me/player/volume"
       {| opt_method := Some PUT;
          opt_body := None;
          opt_params :=
            Some (("volume_percent", Some (PNumber (Math_round volumePercent)))
                  :: device_entries deviceId) |} ;;;
     ret (text_result
            ("Volume set to " ++ String_of_number (Math_round volumePercent) ++ "%")))
    (fun error => ret (text_result ("Error setting volume: " ++ message error))).




End Tools.

(** * Vocabulary of the properties *)

Section Vocabulary.

Context `{RT : Runtime}.

(** A string property that a truthiness test refuses: missing, or the empty
    string. *)
Definition missing_or_empty (s : option string) : Prop :=
  s = None \/ s = Some "".

(** A string property that a truthiness test accepts. *)
Definition present_nonempty (s : option string) : Prop :=
  exists v, s = Some v /\ v <> "".

(** The configuration object after a successful refresh. *)
Definition refreshed (c : SpotifyConfig) (now : Z) (tokens : Tokens) : SpotifyConfig :=
  set_expiresAt (Some (now + expires_in tokens * 1000))
    (set_accessToken (access_token tokens) c).

(** The refresh request did not yield tokens: [fetch] rejected, the status
    was not 2xx, or the body did not decode. *)
Definition refresh_fails (reply : Reply) : Prop :=
  match reply with
  | Rejects _ => True
  | Resolves response =>
      status response < 200 \/ 299 < status response
      \/ exists msg, JSON_token (text response) = inl msg
  end.

(** [accessToken] and [refreshToken] are both set or both missing. *)
Definition paired (c : SpotifyConfig) : Prop :=
  (accessToken c <> None /\ refreshToken c <> None)
  \/ (accessToken c = None /\ refreshToken c = None).

(** The token-pair invariant of the persisted record; it says nothing of a
    file that is missing or does not decode. *)
Definition paired_file (f : option ConfigFile) : Prop :=
  match f with
  | Some (Holds c) => paired c
  | _ => True
  end.

(** The character [c] does not occur in [s]. *)
Fixpoint free_of (c : ascii) (s : string) : Prop :=
  match s with
  | EmptyString => True
  | String a rest => a <> c /\ free_of c rest
  end.

(** The entries of [params] that have a value, in order. *)
Definition present_params (params : option (list (string * option ParamValue)))
  : list (string * ParamValue) :=
  match params with
  | Some entries =>
      flat_map (fun p => match snd p with
                         | Some v => [(fst p, v)]
                         | None => []
                         end) entries
  | None => []
  end.

(** The query string of the given parameters: [name=value] joined by [&],
    each name and value percent-encoded. *)
Definition query_of (l : list (string * ParamValue)) : string :=
  String.concat "&"
    (map (fun p => urlencode (fst p) ++ "=" ++ urlencode (String_of_param (snd p))) l).

(** What an action does to a pending promise. *)
Definition settlement (a : Action) : option Promise :=
  match a with
  | Resolve => Some Fulfilled
  | Reject e => Some (Rejected e)
  | RejectOnError e => Some (Rejected e)
  | _ => None
  end.

(** The promise after the given actions: settled by the first [resolve] or
    [reject] among them, pending when there is none. *)
Fixpoint first_settlement (l : list Action) : Promise :=
  match l with
  | [] => Pending
  | a :: rest =>
      match settlement a with
      | Some p => p
      | None => first_settlement rest
      end
  end.

(** A [resolve()] or [reject(e)] of the request handler. *)
Definition handler_settles (a : Action) : Prop :=
  a = Resolve \/ exists e, a = Reject e.

(** In the trace [l], every [resolve] and [reject] of the request handler
    comes right after a [server.close()]. *)
Definition closed_before_settle (l : list Action) : Prop :=
  forall pre a post,
    l = (pre ++ a :: post)%list -> handler_settles a ->
    exists pre', pre = (pre' ++ [Close])%list.

(** The configuration object after a successful exchange at time [now]. *)
Definition exchanged (c : SpotifyConfig) (now : Z) (tokens : Tokens) : SpotifyConfig :=
  set_expiresAt (Some (now + expires_in tokens * 1000))
    (set_refreshToken (refresh_token tokens)
       (set_accessToken (access_token tokens) c)).

(** The steps of a flow as a relation: what an event can do to a flow and
    its world. [step_effect_of] below shows that [step] takes one of them. *)
Inductive step_effect (f : Flow) (w : World) : Event -> Flow * World -> Prop :=
| effect_none (ev : Event) :
    step_effect f w ev (f, w)
| effect_bound :
    server f = Starting ->
    step_effect f w Bound
      (log_action (Open (authorizationUrl f)) (set_server Listening f), w)
| effect_respond (req_url : option RequestUrl) (page : Page) :
    server f <> Starting ->
    step_effect f w (Incoming req_url) (res_end page f, w)
| effect_reject (req_url : option RequestUrl) (page : Page) (e : Error) :
    server f <> Starting ->
    step_effect f w (Incoming req_url)
      (reject e (server_close (res_end page f)), w)
| effect_await (reqUrl : RequestUrl) (code : string) :
    server f <> Starting ->
    get "state" (req_searchParams reqUrl) = Some (state f) ->
    step_effect f w (Incoming (Some reqUrl))
      (set_awaiting (awaiting f ++ [code]) f,
       log_request (exchange_request code (config f)) w)
| effect_exchanged (k : nat) (reply : Reply) (code : string) (tokens : Tokens) :
    nth_error (awaiting f) k = Some code ->
    exchange_result reply = Ok tokens ->
    step_effect f w (Exchanged k reply)
      (resolve
         (server_close
            (res_end AuthenticationSuccessful
               (set_config (exchanged (config f) (now w) tokens)
                  (set_awaiting (remove_nth k (awaiting f)) f)))),
       write_file (Holds (exchanged (config f) (now w) tokens)) w)
| effect_exchange_failed (k : nat) (reply : Reply) (code : string) (e : Error) :
    nth_error (awaiting f) k = Some code ->
    exchange_result reply = Throw e ->
    step_effect f w (Exchanged k reply)
      (reject e
         (server_close
            (res_end TokenExchangeFailed
               (set_awaiting (remove_nth k (awaiting f)) f))), w)
| effect_error (msg : string) :
    step_effect f w (ServerError msg)
      (set_authPromise (settle (Rejected (RuntimeError msg)) (authPromise f))
         (log_action (RejectOnError (RuntimeError msg)) f), w)
| effect_tick (ms : N) :
    step_effect f w (Tick ms) (f, advance ms w).

(** What holds of a flow at every moment: the promise is what the first
    [resolve] or [reject] made it, the request handler never settles it before
    closing the server, and a closed server stays closed. *)
Definition flow_invariant (f : Flow) : Prop :=
  authPromise f = first_settlement (actions f)
  /\ closed_before_settle (actions f)
  /\ (In Close (actions f) -> server f = Closed).


(** The tokens that [exchangeCodeForToken] returned come as a pair: both
    or neither. *)
Definition paired_tokens (tokens : Tokens) : Prop :=
  (access_token tokens <> None /\ refresh_token tokens <> None)
  \/ (access_token tokens = None /\ refresh_token tokens = None).

(** Every token exchange among [events] that succeeds returns tokens that
    satisfy [P]. *)
Definition exchanges_return (P : Tokens -> Prop) (events : list Event) : Prop :=
  forall k reply tokens,
    In (Exchanged k reply) events -> exchange_result reply = Ok tokens ->
    P tokens.

(** [u] is a callback request: its path is the callback path of the flow. *)
Definition is_callback (f : Flow) (u : RequestUrl) : Prop :=
  req_pathname u = callbackPath f.

(** The test of [handleSpotifyRequest] on an error message: it looks like
    the message of a JSON syntax error. *)
Definition looks_like_JSON_error (errorMessage : string) : bool :=
  includes errorMessage "Unexpected token"
  || includes errorMessage "Unexpected non-whitespace character"
  || includes errorMessage "Exponent part is missing a number in JSON".



End Vocabulary.

(** * A runtime and worlds for the examples *)

Definition quoted (s : string) : string := dq ++ s ++ dq.

(** [{"access_token":"A1","refresh_token":"R1","expires_in":3600}] *)
Definition body_full : string :=
  "{" ++ quoted "access_token" ++ ":" ++ quoted "A1" ++ ","
  ++ quoted "refresh_token" ++ ":" ++ quoted "R1" ++ ","
  ++ quoted "expires_in" ++ ":3600}".

(** [{"access_token":"A2","expires_in":3600}] *)
Definition body_access_only : string :=
  "{" ++ quoted "access_token" ++ ":" ++ quoted "A2" ++ ","
  ++ quoted "expires_in" ++ ":3600}".

(** [{"error":"invalid_grant"}] *)
Definition body_invalid_grant : string :=
  "{" ++ quoted "error" ++ ":" ++ quoted "invalid_grant" ++ "}".

(** A runtime that decodes what the examples need: integer literals as JSON
    values, the token bodies above, one redirect URI; request bodies are
    objects with integer values. Base64 and the percent encoding are left as
    the identity; no example depends on them. *)
Definition test_runtime : Runtime :=
  {| json := Z;
     JSON_parse := fun s =>
       match NilZero.int_of_string s with
       | Some d => inr (Z.of_int d)
       | None => inl "Unexpected token"
       end;
     JSON_token := fun s =>
       if String.eqb s body_full then
         inr {| data_access_token := Some "A1";
                data_refresh_token := Some "R1";
                data_expires_in := Some 3600 |}
       else if String.eqb s body_access_only then
         inr {| data_access_token := Some "A2";
                data_refresh_token := None;
                data_expires_in := Some 3600 |}
       else if String.eqb s body_invalid_grant then
         inr {| data_access_token := None;
                data_refresh_token := None;
                data_expires_in := None |}
       else inl "Unexpected token";
     object := list (string * Z);
     JSON_stringify := fun o =>
       "{" ++ String.concat ","
                (map (fun p => quoted (fst p) ++ ":" ++ String_of_number (snd p)) o)
       ++ "}";
     Buffer_base64 := fun s => s;
     urlencode := fun s => s;
     new_URL := fun s =>
       if String.eqb s "http://127.0.0.1:8888/callback" then
         inr {| hostname := "127.0.0.1"; port := "8888"; pathname := "/callback" |}
       else inl "Invalid URL";
     CONFIG_FILE := "/opt/spotify-mcp/spotify-config.json" |}.

(** A configuration with the three required properties and the given
    tokens and expiry. *)
Definition test_config (a r : option string) (e : option Z) : SpotifyConfig :=
  {| clientId := Some "client";
     clientSecret := Some "secret";
     redirectUri := Some "http://127.0.0.1:8888/callback";
     accessToken := a;
     refreshToken := r;
     expiresAt := e |}.

(** A world at time [1000000] whose servers answer every request with
    [reply], with no request sent yet and an empty cache. *)
Definition test_world (f : option ConfigFile) (reply : Reply) : World :=
  {| file := f;
     cachedAccessToken := None;
     now := 1000000;
     net := fun _ => reply;
     sent := [] |}.

(** A runtime for the tool handlers: [test_runtime] with request bodies
    that are the object literals themselves, printed as [key=value] lines. *)
Definition tools_runtime : Runtime :=
  {| json := Z;
     object := list (string * Literal);
     JSON_parse := @JSON_parse test_runtime;
     JSON_token := @JSON_token test_runtime;
     JSON_stringify := fun o =>
       String.concat ","
         (map (fun p =>
                 fst p ++ "="
                 ++ match snd p with
                    | LString v => v
                    | LNumber n => String_of_number n
                    | LBoolean true => "true"
                    | LBoolean false => "false"
                    | LStrings l => String.concat " " l
                    | LUndefined => "undefined"
                    end) o);
     Buffer_base64 := fun s => s;
     urlencode := fun s => s;
     new_URL := @new_URL test_runtime;
     CONFIG_FILE := "/opt/spotify-mcp/spotify-config.json" |}.

(** A reply with status 200 and the given body. *)
Definition ok_reply (body : string) : Reply :=
  Resolves {| status := 200; text := body |}.

(** Random bytes that are all zero: the generated state is sixteen [A]s. *)
Definition test_random : nat -> N := fun _ => 0%N.

(** A request for the callback path with the given query. *)
Definition callback (query : list (string * string)) : RequestUrl :=
  {| req_pathname := "/callback"; req_searchParams := query |}.

(** The callback of a granted authorization for the flow of [test_random]. *)
Definition valid_callback : RequestUrl :=
  callback [("code", "CODE"); ("state", "AAAAAAAAAAAAAAAA")].

(** A callback with a state other than the generated one. *)
Definition forged_callback : RequestUrl :=
  callback [("code", "EVIL"); ("state", "BBBBBBBBBBBBBBBB")].

(** The world of [test_world] with the record [c] on file. *)
Definition world_of (c : SpotifyConfig) (reply : Reply) : World :=
  test_world (Some (Holds c)) reply.

(** A record whose token expired long before the time of [test_world]. *)
Definition stale_config : SpotifyConfig :=
  test_config (Some "A0") (Some "R0") (Some 999).

(** A record whose token is valid for a while after that time. *)
Definition fresh_config : SpotifyConfig :=
  test_config (Some "A0") (Some "R0") (Some 2000000).

(** A record with both tokens, the access token being the empty string. *)
Definition empty_token_config : SpotifyConfig :=
  test_config (Some "") (Some "R0") None.

(** A record without tokens: the application was never authorized. *)
Definition unauthorized_config : SpotifyConfig :=
  test_config None None None.

(** A record whose [clientId] is the empty string. *)
Definition empty_clientId_config : SpotifyConfig :=
  {| clientId := Some "";
     clientSecret := Some "secret";
     redirectUri := Some "http://127.0.0.1:8888/callback";
     accessToken := None;
     refreshToken := None;
     expiresAt := None |}.

(** The token endpoint refusing a grant: HTTP 400. *)
Definition bad_request_reply : Reply :=
  Resolves {| status := 400; text := body_invalid_grant |}.

(** [PUT /me/player/volume?volume_percent=50], the device left out. *)
Definition volume_options : @SpotifyFetchOptions test_runtime :=
  {| opt_method := Some PUT;
     opt_body := None;
     opt_params := Some [("volume_percent", Some (PNumber 50));
                         ("device_id", None)] |}.

(** Options with a method and nothing else. *)
Definition method_options (m : Method) : @SpotifyFetchOptions test_runtime :=
  {| opt_method := Some m; opt_body := None; opt_params := None |}.

(** The flow that [authorizeSpotify] sets up for [unauthorized_config]
    and [test_random]. *)
Definition test_flow : Flow :=
  {| config := unauthorized_config;
     state := "AAAAAAAAAAAAAAAA";
     listenPort := "8888";
     callbackPath := "/callback";
     authorizationUrl :=
       @authorization_url test_runtime unauthorized_config "AAAAAAAAAAAAAAAA";
     server := Starting;
     authPromise := Pending;
     awaiting := [];
     actions := [] |}.

(** A granted authorization: the server listens, the callback arrives, the
    exchange succeeds a quarter of a second later with [body]. *)
Definition granted (body : string) : list Event :=
  [Bound; Incoming (Some valid_callback); Tick 250;
   Exchanged 0 (ok_reply body)].

(** A forged callback arriving while the exchange of the valid one is
    under way. *)
Definition raced : list Event :=
  [Bound; Incoming (Some valid_callback); Incoming (Some forged_callback);
   Exchanged 0 (ok_reply body_full)].

(** The flow of [test_flow] once its server listens. *)
Definition listening_flow : Flow :=
  fst (@run test_runtime [Bound] test_flow
         (world_of unauthorized_config (ok_reply body_full))).

(** A request for a path other than the callback path. *)
Definition favicon_request : RequestUrl :=
  {| req_pathname := "/favicon.ico"; req_searchParams := [] |}.

(** The callback arrives and the token endpoint refuses the exchange. *)
Definition refused : list Event :=
  [Bound; Incoming (Some valid_callback); Exchanged 0 bad_request_reply].

(** The token data of [body_full]. *)
Definition data_full : TokenData :=
  {| data_access_token := Some "A1";
     data_refresh_token := Some "R1";
     data_expires_in := Some 3600 |}.


Definition no_args : PlayArgs :=
  {| arg_uri := None; arg_type := None; arg_id := None; arg_deviceId := None |}.

(** The object literals of the tool handlers under [tools_runtime]. *)
Definition literal_object (l : list (string * Literal)) : @object tools_runtime := l.

(** A world in which the Web API answers 204 with no body. *)
Definition player_world : World :=
  world_of fresh_config (Resolves {| status := 204; text := "" |}).

(** The forged callback comes first; the valid callback is served
    afterwards on a connection kept alive, and its exchange succeeds. *)
Definition late_valid : list Event :=
  [Bound; Incoming (Some forged_callback); Tick 10;
   Incoming (Some valid_callback); Exchanged 0 (ok_reply body_full)].

(** * Properties *)

Section Properties.

Context `{RT : Runtime}.

Ltac unfold_m :=
  unfold getAccessToken, refresh_and_save, refreshAccessToken,
    exchangeCodeForToken, loadSpotifyConfig, saveSpotifyConfig, spotifyFetch,
    fetch, bind, try_catch, ret, throw, lift, Date_now, response_json in *.

(** ** Truthiness *)

Lemma truthy_string_true (s : option string) :
  truthy_string s = true <-> exists v, s = Some v /\ v <> "".
Proof.
  destruct s as [[|a v]|]; simpl; split; intros H; try discriminate; auto.
  - destruct H as (v & Hv & Hne). injection Hv as <-. congruence.
  - exists (String a v). split; [reflexivity|discriminate].
  - destruct H as (v & Hv & _). discriminate.
Qed.

Lemma truthy_string_false (s : option string) :
  truthy_string s = false <-> s = None \/ s = Some "".
Proof.
  destruct s as [[|a v]|]; simpl; split; intros H; auto; try discriminate.
  destruct H as [H|H]; discriminate.
Qed.

Lemma truthy_string_Some (v : string) :
  v <> "" -> truthy_string (Some v) = true.
Proof. intros H. apply truthy_string_true. eauto. Qed.

(** The split form of [exchangeCodeForToken] agrees with the function. *)
Lemma exchangeCodeForToken_split (code : string) (c : SpotifyConfig) (w : World) :
  exchangeCodeForToken code c w
  = (exchange_result (net w (exchange_request code c)),
     log_request (exchange_request code c) w).
Proof.
  unfold_m. unfold exchange_result, response_json.
  destruct (net w _) as [msg|resp]; [reflexivity|].
  destruct (ok resp); simpl; [|reflexivity].
  destruct (JSON_token (text resp)); reflexivity.
Qed.

(** ** [loadSpotifyConfig] *)

Lemma loadSpotifyConfig_world (w : World) : snd (loadSpotifyConfig w) = w.
Proof.
  unfold loadSpotifyConfig. destruct (file w) as [f|]; [|reflexivity].
  destruct (parse_config f); reflexivity.
Qed.

Lemma parse_config_Ok (f : ConfigFile) (c : SpotifyConfig) :
  parse_config f = Ok c <->
  f = Holds c /\ truthy_string (clientId c) = true
  /\ truthy_string (clientSecret c) = true
  /\ truthy_string (redirectUri c) = true.
Proof.
  destruct f as [msg|c']; simpl.
  - split; [discriminate|]. intros [H _]. discriminate.
  - destruct (truthy_string (clientId c')) eqn:E1,
      (truthy_string (clientSecret c')) eqn:E2,
      (truthy_string (redirectUri c')) eqn:E3; simpl;
      split; try discriminate;
      try (intros (H & H1 & H2 & H3); injection H as ->; congruence).
    intros H. injection H as ->. auto.
Qed.

Lemma loadSpotifyConfig_Holds (w : World) (c : SpotifyConfig) :
  file w = Some (Holds c) ->
  loadSpotifyConfig w
  = (if truthy_string (clientId c) && truthy_string (clientSecret c)
        && truthy_string (redirectUri c)
     then Ok c else Throw (ConfigInvalid (message ConfigIncomplete)), w).
Proof.
  intros Hf. unfold loadSpotifyConfig. rewrite Hf. simpl.
  destruct (truthy_string (clientId c) && truthy_string (clientSecret c)
            && truthy_string (redirectUri c)); reflexivity.
Qed.

(** ** [getAccessToken] *)

Lemma refreshAccessToken_split (c : SpotifyConfig) (w : World) :
  truthy_string (refreshToken c) = true ->
  refreshAccessToken c w
  = (refresh_result (net w (refresh_request c)),
     log_request (refresh_request c) w).
Proof.
  intros Hr. unfold_m. unfold refresh_result, response_json. rewrite Hr. simpl.
  destruct (net w _) as [msg|resp]; [reflexivity|].
  destruct (ok resp); simpl; [|reflexivity].
  destruct (JSON_token (text resp)); reflexivity.
Qed.

(** [getAccessToken] when the file does not load. *)
Lemma getAccessToken_load_fails (w : World) (e : Error) :
  fst (loadSpotifyConfig w) = Throw e ->
  getAccessToken w = (Throw e, w).
Proof.
  intros H. unfold getAccessToken, bind.
  pose proof (loadSpotifyConfig_world w) as Hw.
  destruct (loadSpotifyConfig w) as [[c|e'] w']; simpl in *; [discriminate|].
  congruence.
Qed.

(** [getAccessToken] on a loaded configuration without a usable token pair. *)
Lemma getAccessToken_unauthenticated (w : World) (c : SpotifyConfig) :
  fst (loadSpotifyConfig w) = Ok c ->
  truthy_string (accessToken c) && truthy_string (refreshToken c) = false ->
  getAccessToken w = (Throw Unauthenticated, w).
Proof.
  intros H Ht. unfold getAccessToken, bind.
  pose proof (loadSpotifyConfig_world w) as Hw.
  destruct (loadSpotifyConfig w) as [[c'|e'] w']; simpl in *; [|discriminate].
  injection H as ->. subst w'. rewrite Ht. reflexivity.
Qed.

(** [getAccessToken] on a loaded configuration with a usable token pair. *)
Lemma getAccessToken_authenticated (w : World) (c : SpotifyConfig) :
  fst (loadSpotifyConfig w) = Ok c ->
  truthy_string (accessToken c) && truthy_string (refreshToken c) = true ->
  getAccessToken w
  = if shouldRefresh c (now w) then
      match refresh_result (net w (refresh_request c)) with
      | Ok tokens =>
          (Ok (accessToken (refreshed c (now w) tokens)),
           write_cache (accessToken (refreshed c (now w) tokens))
             (write_cache None
                (write_file (Holds (refreshed c (now w) tokens))
                   (log_request (refresh_request c) w))))
      | Throw _ => (Throw RefreshFailed, log_request (refresh_request c) w)
      end
    else (Ok (accessToken c), write_cache (accessToken c) w).
Proof.
  intros H Ht. unfold getAccessToken, bind at 1.
  pose proof (loadSpotifyConfig_world w) as Hw.
  destruct (loadSpotifyConfig w) as [[c'|e'] w']; simpl in *; [|discriminate].
  injection H as ->. subst w'. rewrite Ht.
  apply andb_true_iff in Ht as [_ Hr].
  unfold bind at 1, Date_now at 1.
  destruct (shouldRefresh c (now w)); [|reflexivity].
  unfold bind at 1, try_catch, refresh_and_save, bind at 1.
  rewrite (refreshAccessToken_split c w Hr).
  destruct (refresh_result _) as [tokens|e]; reflexivity.
Qed.

Lemma shouldRefresh_true (c : SpotifyConfig) (now : Z) :
  shouldRefresh c now = true <->
  expiresAt c = None \/ exists e, expiresAt c = Some e /\ (e = 0 \/ e <= now).
Proof.
  unfold shouldRefresh, truthy_number.
  destruct (expiresAt c) as [e|]; simpl.
  - rewrite orb_true_iff, negb_true_iff, negb_false_iff, Z.eqb_eq, Z.leb_le.
    split.
    + intros H. right. exists e. split; [reflexivity|exact H].
    + intros [H|(e' & He & H)]; [discriminate|]. injection He as <-. exact H.
  - split; auto.
Qed.

Lemma shouldRefresh_false (c : SpotifyConfig) (now : Z) :
  shouldRefresh c now = false <->
  exists e, expiresAt c = Some e /\ e <> 0 /\ now < e.
Proof.
  unfold shouldRefresh, truthy_number.
  destruct (expiresAt c) as [e|]; simpl.
  - rewrite orb_false_iff, negb_false_iff, negb_true_iff, Z.eqb_neq, Z.leb_gt.
    split.
    + intros [H1 H2]. exists e. auto.
    + intros (e' & He & H). injection He as <-. exact H.
  - split; [discriminate|]. intros (e & He & _). discriminate.
Qed.

Lemma loadSpotifyConfig_accepts (w : World) (c : SpotifyConfig) :
  file w = Some (Holds c) ->
  present_nonempty (clientId c) ->
  present_nonempty (clientSecret c) ->
  present_nonempty (redirectUri c) ->
  loadSpotifyConfig w = (Ok c, w).
Proof.
  intros Hf H1 H2 H3. rewrite (loadSpotifyConfig_Holds w c Hf).
  apply truthy_string_true in H1, H2, H3. rewrite H1, H2, H3. reflexivity.
Qed.

Lemma loadSpotifyConfig_write_cache (w : World) (t : option string) :
  loadSpotifyConfig (write_cache t w)
  = (fst (loadSpotifyConfig w), write_cache t w).
Proof.
  unfold loadSpotifyConfig. simpl. destruct (file w) as [f|]; [|reflexivity].
  destruct (parse_config f); reflexivity.
Qed.

(** Every run of [getAccessToken] is one of four: the file does not load;
    it loads without a usable token pair; the token is still valid; a refresh
    is attempted. The cache is written and never read. *)
Lemma getAccessToken_cases (w : World) :
  (exists e, fst (loadSpotifyConfig w) = Throw e
             /\ getAccessToken w = (Throw e, w))
  \/ (exists c, fst (loadSpotifyConfig w) = Ok c
                /\ truthy_string (accessToken c) && truthy_string (refreshToken c) = false
                /\ getAccessToken w = (Throw Unauthenticated, w))
  \/ (exists c, fst (loadSpotifyConfig w) = Ok c
                /\ truthy_string (accessToken c) && truthy_string (refreshToken c) = true
                /\ shouldRefresh c (now w) = false
                /\ getAccessToken w = (Ok (accessToken c), write_cache (accessToken c) w))
  \/ (exists c, fst (loadSpotifyConfig w) = Ok c
                /\ truthy_string (accessToken c) && truthy_string (refreshToken c) = true
                /\ shouldRefresh c (now w) = true
                /\ getAccessToken w
                   = match refresh_result (net w (refresh_request c)) with
                     | Ok tokens =>
                         (Ok (accessToken (refreshed c (now w) tokens)),
                          write_cache (accessToken (refreshed c (now w) tokens))
                            (write_cache None
                               (write_file (Holds (refreshed c (now w) tokens))
                                  (log_request (refresh_request c) w))))
                     | Throw _ =>
                         (Throw RefreshFailed, log_request (refresh_request c) w)
                     end).
Proof.
  destruct (fst (loadSpotifyConfig w)) as [c|e] eqn:Hl.
  - destruct (truthy_string (accessToken c) && truthy_string (refreshToken c)) eqn:Ht.
    + pose proof (getAccessToken_authenticated w c Hl Ht) as H.
      destruct (shouldRefresh c (now w)) eqn:Hs.
      * right. right. right. exists c. repeat split; assumption.
      * right. right. left. exists c. repeat split; assumption.
    + right. left. exists c. repeat split; try assumption.
      apply (getAccessToken_unauthenticated w c Hl Ht).
  - left. exists e. split; [reflexivity|].
    apply (getAccessToken_load_fails w e Hl).
Qed.

Lemma getAccessToken_write_cache (w : World) (t : option string) :
  fst (getAccessToken (write_cache t w)) = fst (getAccessToken w)
  /\ sent (snd (getAccessToken (write_cache t w))) = sent (snd (getAccessToken w))
  /\ file (snd (getAccessToken (write_cache t w))) = file (snd (getAccessToken w)).
Proof.
  pose proof (loadSpotifyConfig_write_cache w t) as Hl.
  destruct (getAccessToken_cases w) as
    [(e & H1 & H2)|[(c & H1 & H2 & H3)|[(c & H1 & H2 & H3 & H4)|(c & H1 & H2 & H3 & H4)]]];
    rewrite H1 in Hl.
  - rewrite H2, (getAccessToken_load_fails (write_cache t w) e); [auto|].
    rewrite Hl. reflexivity.
  - rewrite H3, (getAccessToken_unauthenticated (write_cache t w) c); auto.
    rewrite Hl. reflexivity.
  - rewrite H4, (getAccessToken_authenticated (write_cache t w) c); auto.
    + simpl. rewrite H3. auto.
    + rewrite Hl. reflexivity.
  - rewrite H4, (getAccessToken_authenticated (write_cache t w) c); auto.
    + simpl. rewrite H3.
      destruct (refresh_result _); auto.
    + rewrite Hl. reflexivity.
Qed.

(** The record on file after a run holds the token the run returned. *)
Lemma getAccessToken_returns_persisted (w : World) (tok : option string) :
  fst (getAccessToken w) = Ok tok ->
  exists c', file (snd (getAccessToken w)) = Some (Holds c')
             /\ accessToken c' = tok.
Proof.
  destruct (getAccessToken_cases w) as
    [(e & H1 & H2)|[(c & H1 & H2 & H3)|[(c & H1 & H2 & H3 & H4)|(c & H1 & H2 & H3 & H4)]]].
  - rewrite H2. discriminate.
  - rewrite H3. discriminate.
  - rewrite H4. simpl. intros H. injection H as <-. exists c. split; [|reflexivity].
    unfold loadSpotifyConfig in H1. destruct (file w) as [[msg|c0]|]; simpl in H1;
      try discriminate.
    destruct (negb _); simpl in H1; [discriminate|]. congruence.
  - rewrite H4. destruct (refresh_result _) as [tokens|e]; simpl; [|discriminate].
    intros H. injection H as <-. eauto.
Qed.

(** C10. For any two initial values of [cachedAccessToken], [getAccessToken]
    run on the same file, clock and servers returns the same result (the same
    token or the same error), sends the same requests and leaves the same
    file; and a returned token is the [accessToken] of the record on file
    after the run, freshly loaded or just refreshed, never the cached value. *)
Theorem cachedAccessToken_never_read (w : World) (t1 t2 : option string) :
  fst (getAccessToken (write_cache t1 w)) = fst (getAccessToken (write_cache t2 w))
  /\ sent (snd (getAccessToken (write_cache t1 w)))
     = sent (snd (getAccessToken (write_cache t2 w)))
  /\ file (snd (getAccessToken (write_cache t1 w)))
     = file (snd (getAccessToken (write_cache t2 w)))
  /\ (forall tok, fst (getAccessToken (write_cache t1 w)) = Ok tok ->
       exists c', file (snd (getAccessToken (write_cache t1 w))) = Some (Holds c')
                  /\ accessToken c' = tok).
Proof.
  destruct (getAccessToken_write_cache w t1) as (A1 & B1 & C1).
  destruct (getAccessToken_write_cache w t2) as (A2 & B2 & C2).
  repeat split; try congruence.
  intros tok. apply getAccessToken_returns_persisted.
Qed.

Lemma authenticated_of_present (c : SpotifyConfig) :
  present_nonempty (accessToken c) ->
  present_nonempty (refreshToken c) ->
  truthy_string (accessToken c) && truthy_string (refreshToken c) = true.
Proof.
  intros Ha Hr. apply truthy_string_true in Ha, Hr. rewrite Ha, Hr. reflexivity.
Qed.

(** C1, amended. For every persisted record that [loadSpotifyConfig] returns
    and whose [accessToken] and [refreshToken] are both non-empty strings: if
    [expiresAt] is missing, zero, or at most the current time, [getAccessToken]
    sends exactly one request, the refresh request, whatever its outcome; if
    [expiresAt] is non-zero and greater than the current time, it returns the
    stored [accessToken], sends nothing and leaves the file as it is, and so
    does a call repeated at once. *)
Theorem getAccessToken_refreshes_iff_stale (w : World) (c : SpotifyConfig) :
  fst (loadSpotifyConfig w) = Ok c ->
  present_nonempty (accessToken c) ->
  present_nonempty (refreshToken c) ->
  ((expiresAt c = None \/ exists e, expiresAt c = Some e /\ (e = 0 \/ e <= now w)) ->
   sent (snd (getAccessToken w)) = (sent w ++ [refresh_request c])%list)
  /\ ((exists e, expiresAt c = Some e /\ e <> 0 /\ now w < e) ->
      fst (getAccessToken w) = Ok (accessToken c)
      /\ sent (snd (getAccessToken w)) = sent w
      /\ file (snd (getAccessToken w)) = file w
      /\ fst (getAccessToken (snd (getAccessToken w))) = Ok (accessToken c)
      /\ sent (snd (getAccessToken (snd (getAccessToken w)))) = sent w).
Proof.
  intros Hl Ha Hr.
  pose proof (authenticated_of_present c Ha Hr) as Ht.
  pose proof (getAccessToken_authenticated w c Hl Ht) as Hg.
  split.
  - intros Hs. apply shouldRefresh_true in Hs. rewrite Hs in Hg. rewrite Hg.
    destruct (refresh_result _); reflexivity.
  - intros Hs. apply shouldRefresh_false in Hs. rewrite Hs in Hg. rewrite Hg.
    simpl. repeat split.
    + destruct (getAccessToken_write_cache w (accessToken c)) as (A & _ & _).
      rewrite A, Hg. reflexivity.
    + destruct (getAccessToken_write_cache w (accessToken c)) as (_ & B & _).
      rewrite B, Hg. reflexivity.
Qed.

Lemma refresh_fails_Throw (reply : Reply) :
  refresh_fails reply -> exists e, refresh_result reply = Throw e.
Proof.
  destruct reply as [msg|resp]; simpl; [eauto|].
  unfold ok, response_json. intros [H|[H|(msg & H)]].
  - apply Z.leb_gt in H. rewrite H. simpl. eauto.
  - apply Z.leb_gt in H. rewrite H, andb_false_r. simpl. eauto.
  - rewrite H. destruct (negb _); eauto.
Qed.

Lemma loadSpotifyConfig_Ok_file (w : World) (c : SpotifyConfig) :
  fst (loadSpotifyConfig w) = Ok c -> file w = Some (Holds c).
Proof.
  unfold loadSpotifyConfig. destruct (file w) as [f|]; [|discriminate].
  destruct (parse_config f) as [c'|e] eqn:Hp; simpl; [|discriminate].
  intros H. injection H as ->. apply parse_config_Ok in Hp as [-> _]. reflexivity.
Qed.

Lemma app_singleton_neq {A} (l : list A) (x : A) : l <> (l ++ [x])%list.
Proof.
  intros H. apply (f_equal (@List.length A)) in H.
  rewrite length_app in H. simpl in H. lia.
Qed.

(** C3. For every persisted record that contains both [accessToken] and
    [refreshToken] and is stale: if [getAccessToken] sends the refresh request
    and that request fails (the [fetch] rejects, the status is not 2xx, as
    with HTTP 400, or the body does not decode), then [getAccessToken] fails
    with [RefreshFailed] and the file is unchanged; the stale [accessToken]
    and the [refreshToken] are still in it. *)
Theorem refresh_failure_keeps_record (w : World) (c : SpotifyConfig) (a r : string) :
  file w = Some (Holds c) ->
  accessToken c = Some a ->
  refreshToken c = Some r ->
  (expiresAt c = None \/ exists e, expiresAt c = Some e /\ e <= now w) ->
  sent (snd (getAccessToken w)) = (sent w ++ [refresh_request c])%list ->
  refresh_fails (net w (refresh_request c)) ->
  fst (getAccessToken w) = Throw RefreshFailed
  /\ file (snd (getAccessToken w)) = file w
  /\ exists c', file (snd (getAccessToken w)) = Some (Holds c')
                /\ accessToken c' = Some a /\ refreshToken c' = Some r.
Proof.
  intros Hf Ha Hr Hstale Hsent Hfail.
  assert (Hc : forall c', fst (loadSpotifyConfig w) = Ok c' -> c' = c).
  { intros c' H. apply loadSpotifyConfig_Ok_file in H. congruence. }
  destruct (getAccessToken_cases w) as
    [(e & H1 & H2)|[(c' & H1 & H2 & H3)|[(c' & H1 & H2 & H3 & H4)|(c' & H1 & H2 & H3 & H4)]]].
  - rewrite H2 in Hsent. simpl in Hsent. now apply app_singleton_neq in Hsent.
  - rewrite H3 in Hsent. simpl in Hsent. now apply app_singleton_neq in Hsent.
  - rewrite H4 in Hsent. simpl in Hsent. now apply app_singleton_neq in Hsent.
  - apply Hc in H1. subst c'.
    destruct (refresh_fails_Throw _ Hfail) as (e & He).
    rewrite He in H4. rewrite H4. simpl. repeat split; try assumption.
    exists c. auto.
Qed.

(** ** [loadSpotifyConfig], continued *)

(** C7, amended. [loadSpotifyConfig] fails with [ConfigMissing] exactly when
    there is no file; a file that does not decode gives [ConfigInvalid] with
    the decoder's message; a file that decodes gives [ConfigInvalid] when any
    of [clientId], [clientSecret], [redirectUri] is missing or is the empty
    string, and the decoded record when all three are non-empty strings. The
    world is left as it is, and the message of [ConfigMissing] is never that
    of a [ConfigInvalid]. *)
Theorem loadSpotifyConfig_error_taxonomy (w : World) :
  (fst (loadSpotifyConfig w) = Throw ConfigMissing <-> file w = None)
  /\ (forall msg, file w = Some (Malformed msg) ->
       fst (loadSpotifyConfig w) = Throw (ConfigInvalid msg))
  /\ (forall c, file w = Some (Holds c) ->
       missing_or_empty (clientId c) \/ missing_or_empty (clientSecret c)
       \/ missing_or_empty (redirectUri c) ->
       fst (loadSpotifyConfig w) = Throw (ConfigInvalid (message ConfigIncomplete)))
  /\ (forall c, file w = Some (Holds c) ->
       present_nonempty (clientId c) ->
       present_nonempty (clientSecret c) ->
       present_nonempty (redirectUri c) ->
       fst (loadSpotifyConfig w) = Ok c)
  /\ snd (loadSpotifyConfig w) = w
  /\ (forall msg, message ConfigMissing <> message (ConfigInvalid msg)).
Proof.
  repeat split.
  - unfold loadSpotifyConfig. destruct (file w) as [f|]; [|reflexivity].
    destruct (parse_config f); discriminate.
  - intros H. unfold loadSpotifyConfig. rewrite H. reflexivity.
  - intros msg H. unfold loadSpotifyConfig. rewrite H. reflexivity.
  - intros c Hf Hm. rewrite (loadSpotifyConfig_Holds w c Hf). simpl.
    unfold missing_or_empty in Hm. rewrite <- !truthy_string_false in Hm.
    destruct Hm as [H|[H|H]]; rewrite H; rewrite ?andb_false_r; reflexivity.
  - intros c Hf H1 H2 H3.
    rewrite (loadSpotifyConfig_accepts w c Hf H1 H2 H3). reflexivity.
  - apply loadSpotifyConfig_world.
  - intros msg. simpl. discriminate.
Qed.

(** ** [spotifyFetch] *)

Lemma getAccessToken_net (w : World) : net (snd (getAccessToken w)) = net w.
Proof.
  destruct (getAccessToken_cases w) as
    [(e & H1 & H2)|[(c & H1 & H2 & H3)|[(c & H1 & H2 & H3 & H4)|(c & H1 & H2 & H3 & H4)]]].
  - rewrite H2. reflexivity.
  - rewrite H3. reflexivity.
  - rewrite H4. reflexivity.
  - rewrite H4. destruct (refresh_result _); reflexivity.
Qed.

(** [spotifyFetch] once the token is there. *)
Lemma spotifyFetch_with_token (w : World) (endpoint : string)
    (options : SpotifyFetchOptions) (tok : option string) :
  fst (getAccessToken w) = Ok tok ->
  spotifyFetch endpoint options w
  = (match net w (api_request tok endpoint options) with
     | Rejects msg => Throw (RuntimeError msg)
     | Resolves response => read_response response
     end,
     log_request (api_request tok endpoint options) (snd (getAccessToken w))).
Proof.
  intros Hg. unfold spotifyFetch, bind, fetch, lift.
  pose proof (getAccessToken_net w) as Hn.
  destruct (getAccessToken w) as [[tok'|e] w1]; simpl in *; [|discriminate].
  injection Hg as ->. rewrite Hn.
  destruct (net w _) as [msg|response]; reflexivity.
Qed.

Lemma nonempty_false (s : string) : nonempty s = false <-> s = "".
Proof. destruct s; simpl; split; congruence. Qed.

(** *** The message of an [ApiError] *)

Lemma string_of_uint_free (d : Decimal.uint) :
  free_of ")" (NilEmpty.string_of_uint d).
Proof.
  induction d; simpl; auto; split; auto; discriminate.
Qed.

Lemma String_of_number_free (n : Z) : free_of ")" (String_of_number n).
Proof.
  unfold String_of_number.
  assert (H : forall d, free_of ")" (NilZero.string_of_uint d)).
  { intros d. pose proof (string_of_uint_free d) as Hd.
    destruct d; simpl in *; auto. split; [discriminate|exact I]. }
  destruct (Z.to_int n) as [d|d]; simpl; [apply H|].
  split; [discriminate|apply H].
Qed.

Lemma String_of_number_inj (a b : Z) :
  String_of_number a = String_of_number b -> a = b.
Proof.
  unfold String_of_number. intros H.
  assert (Hn : forall n, Z.to_int n <> Decimal.Pos Decimal.Nil
                         /\ Z.to_int n <> Decimal.Neg Decimal.Nil).
  { intros [|q|q]; simpl; split; try discriminate;
      intros E; injection E; apply Unsigned.to_uint_nonnil. }
  apply (f_equal NilZero.int_of_string) in H.
  rewrite !NilZero.isi in H by apply Hn.
  injection H. apply DecimalZ.to_int_inj.
Qed.

Lemma append_cancel_l (p a b : string) : p ++ a = p ++ b -> a = b.
Proof.
  induction p as [|c p IH]; simpl; [auto|]. intros H. injection H. exact IH.
Qed.

(** Two strings cut at the first occurrence of a character agree part by
    part. *)
Lemma append_free_inj (c : ascii) (s1 s2 r1 r2 : string) :
  free_of c s1 -> free_of c s2 ->
  s1 ++ String c r1 = s2 ++ String c r2 -> s1 = s2 /\ r1 = r2.
Proof.
  revert s2. induction s1 as [|a s1 IH]; intros [|b s2]; simpl.
  - intros _ _ H. injection H. auto.
  - intros _ [Hb _] H. injection H as H _. congruence.
  - intros [Ha _] _ H. injection H as H _. congruence.
  - intros [_ H1] [_ H2] H. injection H as -> H.
    destruct (IH s2 H1 H2 H) as [-> ->]. auto.
Qed.

(** The status and the body can be read back from the message of the
    error that [spotifyFetch] throws. *)
Lemma ApiError_message_inj (s1 s2 : Z) (t1 t2 : string) :
  message (ApiError s1 t1) = message (ApiError s2 t2) -> s1 = s2 /\ t1 = t2.
Proof.
  unfold message. intros H. apply append_cancel_l in H.
  change ("): " ++ t1) with (String ")" (": " ++ t1)) in H.
  change ("): " ++ t2) with (String ")" (": " ++ t2)) in H.
  apply append_free_inj in H; try apply String_of_number_free.
  destruct H as [Hs Ht]. split.
  - apply String_of_number_inj. exact Hs.
  - apply append_cancel_l in Ht. exact Ht.
Qed.

(** C2. For every call of [spotifyFetch] that obtains a token and whose
    request is answered: a status outside 200-299 makes the call fail with
    [ApiError] carrying that status and the raw body text, both of which can
    be read back from the message of the error; a status within 200-299 makes
    it return nothing when the body is empty, the decoded value when the body
    decodes, and nothing, without an error, when the body does not decode. *)
Theorem spotifyFetch_result (w : World) (endpoint : string)
    (options : SpotifyFetchOptions) (tok : option string) (response : Response) :
  fst (getAccessToken w) = Ok tok ->
  net w (api_request tok endpoint options) = Resolves response ->
  (status response < 200 \/ 299 < status response ->
   fst (spotifyFetch endpoint options w)
   = Throw (ApiError (status response) (text response))
   /\ forall s t,
        message (ApiError s t)
        = message (ApiError (status response) (text response)) ->
        s = status response /\ t = text response)
  /\ (200 <= status response <= 299 ->
      (text response = "" -> fst (spotifyFetch endpoint options w) = Ok None)
      /\ (forall v, text response <> "" -> JSON_parse (text response) = inr v ->
          fst (spotifyFetch endpoint options w) = Ok (Some v))
      /\ (forall msg, JSON_parse (text response) = inl msg ->
          fst (spotifyFetch endpoint options w) = Ok None)).
Proof.
  intros Hg Hn. rewrite (spotifyFetch_with_token w endpoint options tok Hg), Hn.
  simpl. unfold read_response, ok. split.
  - intros H. split; [|intros s t; apply ApiError_message_inj].
    destruct H as [H|H]; apply Z.leb_gt in H; rewrite H; rewrite ?andb_false_r;
      reflexivity.
  - intros [H1 H2]. apply Z.leb_le in H1, H2. rewrite H1, H2. simpl.
    repeat split.
    + intros ->. reflexivity.
    + intros v Hne Hv. rewrite Hv.
      destruct (nonempty (text response)) eqn:E; [reflexivity|].
      apply nonempty_false in E. contradiction.
    + intros msg Hm. rewrite Hm. destruct (negb _); reflexivity.
Qed.

Lemma searchParams_present (entries : list (string * option ParamValue)) :
  searchParams entries
  = map (fun p => (fst p, String_of_param (snd p))) (present_params (Some entries)).
Proof.
  induction entries as [|[key [value|]] rest IH]; simpl in *; congruence.
Qed.

Lemma toString_searchParams (entries : list (string * option ParamValue)) :
  URLSearchParams_toString (searchParams entries)
  = query_of (present_params (Some entries)).
Proof.
  unfold URLSearchParams_toString, query_of.
  rewrite searchParams_present, map_map. reflexivity.
Qed.

Lemma nonempty_append (s t : string) :
  nonempty (s ++ t) = nonempty s || nonempty t.
Proof. destruct s; simpl; [reflexivity|reflexivity]. Qed.

Lemma query_of_nonempty (l : list (string * ParamValue)) :
  l <> [] -> nonempty (query_of l) = true.
Proof.
  destruct l as [|p rest]; [congruence|]. intros _.
  unfold query_of. simpl. destruct (map _ rest).
  - rewrite !nonempty_append. simpl. apply orb_true_r.
  - rewrite !nonempty_append. simpl. rewrite orb_true_r. reflexivity.
Qed.

Lemma present_params_In (entries : list (string * option ParamValue))
    (key : string) (value : ParamValue) :
  In (key, value) (present_params (Some entries)) <-> In (key, Some value) entries.
Proof.
  induction entries as [|[k [v|]] rest IH]; simpl in *.
  - tauto.
  - rewrite IH. split; intros [H|H]; auto; left; congruence.
  - rewrite IH. split; [auto|]. intros [H|H]; [discriminate|assumption].
Qed.

Lemma request_url_present (endpoint : string)
    (params : option (list (string * option ParamValue))) :
  request_url endpoint params
  = match present_params params with
    | [] => SPOTIFY_API_BASE ++ endpoint
    | _ :: _ => (SPOTIFY_API_BASE ++ endpoint) ++ "?" ++ query_of (present_params params)
    end.
Proof.
  unfold request_url. destruct params as [entries|]; [|reflexivity].
  rewrite toString_searchParams.
  destruct (present_params (Some entries)) as [|p rest] eqn:E; [reflexivity|].
  rewrite query_of_nonempty; [reflexivity|discriminate].
Qed.

(** C8. For every endpoint, parameter map and optional body, the request
    that [spotifyFetch] sends once it has a token is built as follows. Only
    the parameters that have a value enter the URL: with none, the URL is the
    base and the endpoint, with no question mark; otherwise a question mark
    and their non-empty encoded query string follow. The headers hold the
    bearer [Authorization], and a [Content-Type], which is then the JSON one,
    if and only if a body is given. *)
Theorem spotifyFetch_request (w : World) (endpoint : string)
    (options : SpotifyFetchOptions) (tok : option string) :
  fst (getAccessToken w) = Ok tok ->
  exists r,
    sent (snd (spotifyFetch endpoint options w))
    = (sent (snd (getAccessToken w)) ++ [r])%list
    /\ (forall key value,
          In (key, value) (present_params (opt_params options)) <->
          exists entries, opt_params options = Some entries
                          /\ In (key, Some value) entries)
    /\ (present_params (opt_params options) = [] ->
        url r = SPOTIFY_API_BASE ++ endpoint)
    /\ (present_params (opt_params options) <> [] ->
        url r = (SPOTIFY_API_BASE ++ endpoint) ++ "?"
                ++ query_of (present_params (opt_params options))
        /\ query_of (present_params (opt_params options)) <> "")
    /\ In ("Authorization", "Bearer " ++ interpolate tok) (headers r)
    /\ ((exists v, In ("Content-Type", v) (headers r)) <-> opt_body options <> None)
    /\ (forall v, In ("Content-Type", v) (headers r) -> v = "application/json").
Proof.
  intros Hg. exists (api_request tok endpoint options).
  rewrite (spotifyFetch_with_token w endpoint options tok Hg). simpl.
  split; [reflexivity|]. split.
  { intros key value. destruct (opt_params options) as [entries|].
    - rewrite present_params_In. split.
      + intros H. exists entries. auto.
      + intros (entries' & He & H). injection He as <-. exact H.
    - simpl. split; [tauto|]. intros (entries & He & _). discriminate. }
  rewrite request_url_present.
  split; [intros ->; reflexivity|]. split.
  { intros Hne. destruct (present_params (opt_params options)) as [|p rest] eqn:E;
      [congruence|]. split; [reflexivity|].
    intros H. apply nonempty_false in H.
    rewrite query_of_nonempty in H; discriminate. }
  unfold request_headers.
  destruct (opt_body options) as [b|]; simpl.
  - repeat split; auto; try discriminate.
    + eauto.
    + intros v [H|[H|H]]; [discriminate| |contradiction]. congruence.
  - repeat split; auto; try congruence.
    + intros (v & [H|H]); [discriminate|contradiction].
    + intros v [H|H]; [discriminate|contradiction].
Qed.

(** ** The authorization flow *)

Lemma run_app (es1 es2 : list Event) (f : Flow) (w : World) :
  run (es1 ++ es2) f w
  = run es2 (fst (run es1 f w)) (snd (run es1 f w)).
Proof.
  revert f w. induction es1 as [|ev es1 IH]; intros f w; simpl; [reflexivity|].
  destruct (step ev f w) as [f' w']. apply IH.
Qed.

Lemma run_cons (ev : Event) (rest : list Event) (f : Flow) (w : World) :
  run (ev :: rest) f w = run rest (fst (step ev f w)) (snd (step ev f w)).
Proof. simpl. destruct (step ev f w); reflexivity. Qed.

(** An invariant of the steps holds after every run, as long as the events
    are among those the steps were checked for. *)
Lemma run_invariant (P : Flow -> World -> Prop) (Q : Event -> Prop) :
  (forall ev f w, Q ev -> P f w -> P (fst (step ev f w)) (snd (step ev f w))) ->
  forall events f w,
    (forall ev, In ev events -> Q ev) -> P f w ->
    P (fst (run events f w)) (snd (run events f w)).
Proof.
  intros Hstep events. induction events as [|ev rest IH]; intros f w HQ HP; simpl;
    [assumption|].
  specialize (Hstep ev f w (HQ ev (or_introl eq_refl)) HP).
  destruct (step ev f w) as [f' w']. apply IH; [|assumption].
  intros ev' Hin. apply HQ. right. assumption.
Qed.

(** [step] takes one of the steps of [step_effect]. *)
Lemma step_effect_of (ev : Event) (f : Flow) (w : World) :
  step_effect f w ev (step ev f w).
Proof.
  destruct ev as [|req_url|k reply|msg|ms]; unfold step.
  - destruct (server f) eqn:Hs; try apply effect_none. apply effect_bound. exact Hs.
  - assert (Hcase : server f = Starting \/ server f <> Starting)
      by (destruct (server f); auto; right; discriminate).
    destruct Hcase as [Hs|Hs]; [rewrite Hs; apply effect_none|].
    replace (match server f with
             | Starting => (f, w)
             | _ => on_request req_url f w
             end) with (on_request req_url f w)
      by (destruct (server f); congruence).
    unfold on_request. destruct req_url as [reqUrl|];
      [|apply effect_respond; exact Hs].
    destruct (String.eqb (req_pathname reqUrl) (callbackPath f));
      [|apply effect_respond; exact Hs].
    destruct (truthy_string (get "error" (req_searchParams reqUrl)));
      [apply effect_reject; exact Hs|].
    destruct (get "state" (req_searchParams reqUrl)) as [s|] eqn:Est;
      [|apply effect_reject; exact Hs].
    destruct (String.eqb_spec s (state f)) as [->|Hne];
      [|apply effect_reject; exact Hs].
    cbn [negb].
    destruct (negb _); [apply effect_reject; exact Hs|].
    apply effect_await; [exact Hs|exact Est].
  - destruct (nth_error (awaiting f) k) as [code|] eqn:Hk; [|apply effect_none].
    unfold on_exchanged.
    destruct (exchange_result reply) as [tokens|e] eqn:Hr.
    + apply (effect_exchanged f w k reply code tokens Hk Hr).
    + apply (effect_exchange_failed f w k reply code e Hk Hr).
  - apply effect_error.
  - apply effect_tick.
Qed.

Lemma settle_settled (outcome p : Promise) :
  p <> Pending -> settle outcome p = p.
Proof. destruct p; simpl; congruence. Qed.

(** A settled promise stays as it is. *)
Lemma step_settled (ev : Event) (f : Flow) (w : World) :
  authPromise f <> Pending ->
  authPromise (fst (step ev f w)) = authPromise f.
Proof.
  intros Hp. destruct (step_effect_of ev f w); simpl;
    try reflexivity; apply settle_settled; assumption.
Qed.

Lemma run_settled (events : list Event) (f : Flow) (w : World) :
  authPromise f <> Pending ->
  authPromise (fst (run events f w)) = authPromise f.
Proof.
  revert f w. induction events as [|ev rest IH]; intros f w Hp; simpl; [reflexivity|].
  pose proof (step_settled ev f w Hp) as Hs.
  destruct (step ev f w) as [f' w']. simpl in Hs.
  rewrite IH; congruence.
Qed.

Lemma first_settlement_app (l l' : list Action) :
  first_settlement (l ++ l') = settle (first_settlement l') (first_settlement l).
Proof.
  induction l as [|a l IH]; simpl.
  - destruct (first_settlement l'); reflexivity.
  - destruct a; simpl; auto.
Qed.

Lemma snoc_split {A} (l pre post : list A) (a b : A) :
  (l ++ [a] = pre ++ b :: post)%list ->
  (post = [] /\ pre = l /\ b = a)
  \/ exists post', post = (post' ++ [a])%list /\ l = (pre ++ b :: post')%list.
Proof.
  intros H. destruct post as [|x post _] using rev_ind.
  - left. apply app_inj_tail in H as [-> ->]. auto.
  - right. exists post.
    change (pre ++ b :: post ++ [x])%list with (pre ++ (b :: post) ++ [x])%list in H.
    rewrite app_assoc in H. apply app_inj_tail in H as [-> ->]. auto.
Qed.

Lemma closed_before_settle_nil : closed_before_settle [].
Proof. intros [|x pre] a post H; discriminate. Qed.

Lemma closed_before_settle_other (l : list Action) (a : Action) :
  closed_before_settle l -> ~ handler_settles a ->
  closed_before_settle (l ++ [a]).
Proof.
  intros Hl Ha pre b post H Hb.
  apply snoc_split in H as [(_ & _ & ->)|(post' & _ & ->)]; [contradiction|].
  apply (Hl pre b post' eq_refl Hb).
Qed.

Lemma closed_before_settle_closed (l : list Action) (a : Action) :
  closed_before_settle (l ++ [Close]) ->
  closed_before_settle ((l ++ [Close]) ++ [a]).
Proof.
  intros Hl pre b post H Hb.
  apply snoc_split in H as [(_ & -> & _)|(post' & _ & H)]; [eauto|].
  apply (Hl pre b post' H Hb).
Qed.

Lemma not_settles_Respond (p : Page) : ~ handler_settles (Respond p).
Proof. intros [H|(e & H)]; discriminate. Qed.

Lemma not_settles_Close : ~ handler_settles Close.
Proof. intros [H|(e & H)]; discriminate. Qed.

Lemma not_settles_Open (u : string) : ~ handler_settles (Open u).
Proof. intros [H|(e & H)]; discriminate. Qed.

Lemma not_settles_RejectOnError (e : Error) : ~ handler_settles (RejectOnError e).
Proof. intros [H|(e' & H)]; discriminate. Qed.

(** A response, [server.close()] and then a settlement keep the trace in
    order. *)
Lemma closed_before_settle_block (l : list Action) (p : Page) (a : Action) :
  closed_before_settle l ->
  closed_before_settle (((l ++ [Respond p]) ++ [Close]) ++ [a]).
Proof.
  intros Hl. apply closed_before_settle_closed.
  apply closed_before_settle_other; [|apply not_settles_Close].
  apply closed_before_settle_other; [assumption|apply not_settles_Respond].
Qed.

(** The invariant after a response, [server.close()] and a settlement [a]
    of the request handler that brings the promise to [p]. *)
Lemma flow_invariant_block (f f' : Flow) (page : Page) (a : Action) (p : Promise) :
  flow_invariant f ->
  settlement a = Some p ->
  actions f' = (((actions f ++ [Respond page]) ++ [Close]) ++ [a])%list ->
  authPromise f' = settle p (authPromise f) ->
  server f' = Closed ->
  flow_invariant f'.
Proof.
  intros (Hp & Hc & Hs) Ha Hact Hprom Hserv. unfold flow_invariant.
  rewrite Hact, Hprom, Hserv.
  repeat split.
  - rewrite !first_settlement_app. simpl. rewrite Ha, <- Hp.
    destruct (authPromise f); reflexivity.
  - apply closed_before_settle_block. exact Hc.
Qed.

Lemma flow_invariant_step (ev : Event) (f : Flow) (w : World) :
  flow_invariant f -> flow_invariant (fst (step ev f w)).
Proof.
  intros Hinv. pose proof Hinv as (Hp & Hc & Hs).
  destruct (step_effect_of ev f w) as
    [ev|Hst|req page Hst|req page e Hst|req code Hst
     |k reply code tokens Hk Hr|k reply code e Hk Hr|msg|ms]; simpl fst.
  - exact Hinv.
  - unfold flow_invariant. simpl. repeat split.
    + rewrite first_settlement_app. simpl. rewrite <- Hp.
      destruct (authPromise f); reflexivity.
    + apply closed_before_settle_other; [exact Hc|apply not_settles_Open].
    + intros Hin. apply in_app_iff in Hin as [Hin|[Hin|[]]]; [|discriminate].
      apply Hs in Hin. congruence.
  - unfold flow_invariant. simpl. repeat split.
    + rewrite first_settlement_app. simpl. rewrite <- Hp.
      destruct (authPromise f); reflexivity.
    + apply closed_before_settle_other; [exact Hc|apply not_settles_Respond].
    + intros Hin. apply in_app_iff in Hin as [Hin|[Hin|[]]]; [|discriminate].
      apply Hs in Hin. congruence.
  - apply (flow_invariant_block f _ page (Reject e) (Rejected e) Hinv);
      reflexivity.
  - exact Hinv.
  - apply (flow_invariant_block f _ AuthenticationSuccessful Resolve Fulfilled Hinv);
      reflexivity.
  - apply (flow_invariant_block f _ TokenExchangeFailed (Reject e) (Rejected e) Hinv);
      reflexivity.
  - unfold flow_invariant. simpl. repeat split.
    + rewrite first_settlement_app. simpl. rewrite <- Hp. reflexivity.
    + apply closed_before_settle_other; [exact Hc|apply not_settles_RejectOnError].
    + intros Hin. apply in_app_iff in Hin as [Hin|[Hin|[]]]; [|discriminate].
      apply Hs in Hin. exact Hin.
  - exact Hinv.
Qed.

Lemma flow_invariant_run (events : list Event) (f : Flow) (w : World) :
  flow_invariant f -> flow_invariant (fst (run events f w)).
Proof.
  intros H.
  apply (run_invariant (fun f _ => flow_invariant f) (fun _ => True)); auto.
  intros ev f' w' _. apply flow_invariant_step.
Qed.

(** What [authorizeSpotify] sets up. *)
Lemma authorizeSpotify_initial (random : nat -> N) (w : World) (f0 : Flow) :
  fst (authorizeSpotify random w) = Ok f0 ->
  snd (authorizeSpotify random w) = w
  /\ fst (loadSpotifyConfig w) = Ok (config f0)
  /\ state f0 = generateRandomString 16 random
  /\ server f0 = Starting
  /\ authPromise f0 = Pending
  /\ awaiting f0 = []
  /\ actions f0 = [].
Proof.
  unfold authorizeSpotify, bind, throw, ret.
  pose proof (loadSpotifyConfig_world w) as Hw.
  destruct (loadSpotifyConfig w) as [[c|e] w']; simpl in *; [|discriminate].
  subst w'. destruct (new_URL _) as [msg|u]; simpl; [discriminate|].
  destruct (negb _ && negb _); simpl; [discriminate|].
  intros H. injection H as <-. simpl. repeat split; reflexivity.
Qed.

Lemma flow_invariant_initial (random : nat -> N) (w : World) (f0 : Flow) :
  fst (authorizeSpotify random w) = Ok f0 -> flow_invariant f0.
Proof.
  intros H. apply authorizeSpotify_initial in H as (_ & _ & _ & _ & Hp & _ & Ha).
  unfold flow_invariant. rewrite Hp, Ha. simpl.
  repeat split; [apply closed_before_settle_nil|contradiction].
Qed.

(** Without an [error] event of the server, a settled promise means a
    closed server. *)
Lemma settled_closed_step (ev : Event) (f : Flow) (w : World) :
  (forall msg, ev <> ServerError msg) ->
  (authPromise f <> Pending -> server f = Closed) ->
  authPromise (fst (step ev f w)) <> Pending ->
  server (fst (step ev f w)) = Closed.
Proof.
  intros Hev H.
  destruct (step_effect_of ev f w) as
    [ev|Hst|req page Hst|req page e Hst|req code Hst
     |k reply code tokens Hk Hr|k reply code e Hk Hr|msg|ms]; simpl;
    try reflexivity; try assumption;
    try (intros Hp; apply H in Hp; congruence).
  exfalso. apply (Hev msg). reflexivity.
Qed.

Lemma settled_closed_run (events : list Event) (f : Flow) (w : World) :
  (forall msg, ~ In (ServerError msg) events) ->
  (authPromise f <> Pending -> server f = Closed) ->
  authPromise (fst (run events f w)) <> Pending ->
  server (fst (run events f w)) = Closed.
Proof.
  intros Hev H.
  apply (run_invariant
           (fun f _ => authPromise f <> Pending -> server f = Closed)
           (fun ev => forall msg, ev <> ServerError msg)); auto.
  - intros ev f' w' HQ HP. apply settled_closed_step; assumption.
  - intros ev Hin msg ->. apply (Hev msg Hin).
Qed.

(** The outcome of one callback request that reaches a listening server. *)
Lemma callback_outcomes (f : Flow) (w : World) (u : RequestUrl) :
  server f = Listening ->
  authPromise f = Pending ->
  is_callback f u ->
  (forall e, get "error" (req_searchParams u) = Some e -> e <> "" ->
     authPromise (fst (step (Incoming (Some u)) f w))
     = Rejected (AuthorizationDenied e)
     /\ server (fst (step (Incoming (Some u)) f w)) = Closed)
  /\ (missing_or_empty (get "error" (req_searchParams u)) ->
      get "state" (req_searchParams u) <> Some (state f) ->
      authPromise (fst (step (Incoming (Some u)) f w)) = Rejected StateMismatch
      /\ server (fst (step (Incoming (Some u)) f w)) = Closed)
  /\ (missing_or_empty (get "error" (req_searchParams u)) ->
      get "state" (req_searchParams u) = Some (state f) ->
      missing_or_empty (get "code" (req_searchParams u)) ->
      authPromise (fst (step (Incoming (Some u)) f w)) = Rejected MissingCode
      /\ server (fst (step (Incoming (Some u)) f w)) = Closed)
  /\ (forall code,
        missing_or_empty (get "error" (req_searchParams u)) ->
        get "state" (req_searchParams u) = Some (state f) ->
        get "code" (req_searchParams u) = Some code -> code <> "" ->
        authPromise (fst (step (Incoming (Some u)) f w)) = Pending
        /\ server (fst (step (Incoming (Some u)) f w)) = Listening
        /\ awaiting (fst (step (Incoming (Some u)) f w)) = (awaiting f ++ [code])%list
        /\ sent (snd (step (Incoming (Some u)) f w))
           = (sent w ++ [exchange_request code (config f)])%list
        /\ file (snd (step (Incoming (Some u)) f w)) = file w).
Proof.
  intros Hs Hp Hu. unfold is_callback in Hu. simpl. rewrite Hs.
  unfold on_request. rewrite Hu, String.eqb_refl.
  repeat split.
  - rewrite H, (truthy_string_Some e H0). simpl. rewrite Hp. reflexivity.
  - rewrite H, (truthy_string_Some e H0). reflexivity.
  - apply truthy_string_false in H. rewrite H.
    destruct (get "state" _) as [s|]; simpl.
    + destruct (String.eqb_spec s (state f)) as [->|Hne]; [congruence|].
      simpl. rewrite Hp. reflexivity.
    + rewrite Hp. reflexivity.
  - apply truthy_string_false in H. rewrite H.
    destruct (get "state" _) as [s|]; simpl; [|reflexivity].
    destruct (String.eqb_spec s (state f)) as [->|Hne]; [congruence|reflexivity].
  - apply truthy_string_false in H, H1. rewrite H, H0, String.eqb_refl, H1.
    simpl. rewrite Hp. reflexivity.
  - apply truthy_string_false in H, H1. rewrite H, H0, String.eqb_refl, H1.
    reflexivity.
  - apply truthy_string_false in H. rewrite H, H0, String.eqb_refl, H1.
    rewrite (truthy_string_Some code H2). simpl. assumption.
  - apply truthy_string_false in H. rewrite H, H0, String.eqb_refl, H1.
    rewrite (truthy_string_Some code H2). simpl. assumption.
  - apply truthy_string_false in H. rewrite H, H0, String.eqb_refl, H1.
    rewrite (truthy_string_Some code H2). reflexivity.
  - apply truthy_string_false in H. rewrite H, H0, String.eqb_refl, H1.
    rewrite (truthy_string_Some code H2). reflexivity.
  - apply truthy_string_false in H. rewrite H, H0, String.eqb_refl, H1.
    rewrite (truthy_string_Some code H2). reflexivity.
Qed.

(** The outcome of a token exchange that settles while the promise is
    pending. *)
Lemma exchange_outcomes (f : Flow) (w : World) (k : nat) (reply : Reply)
    (code : string) :
  authPromise f = Pending ->
  nth_error (awaiting f) k = Some code ->
  (forall tokens, exchange_result reply = Ok tokens ->
     authPromise (fst (step (Exchanged k reply) f w)) = Fulfilled
     /\ server (fst (step (Exchanged k reply) f w)) = Closed)
  /\ (forall e, exchange_result reply = Throw e ->
      authPromise (fst (step (Exchanged k reply) f w)) = Rejected e
      /\ server (fst (step (Exchanged k reply) f w)) = Closed
      /\ file (snd (step (Exchanged k reply) f w)) = file w).
Proof.
  intros Hp Hk. simpl. rewrite Hk. unfold on_exchanged. split.
  - intros tokens ->. simpl. rewrite Hp. auto.
  - intros e ->. simpl. rewrite Hp. auto.
Qed.

(** C5. In every run of a flow that [authorizeSpotify] set up: the promise
    is settled by the first [resolve] or [reject] and by no later one, so it
    settles at most once; every [resolve] and [reject] of the request handler
    comes right after [server.close()], so without an [error] event of the
    server a settled promise means a closed server; and each of the listed
    events settles a pending flow: a callback with a provider error, with a
    mismatching state or without a code rejects it, and the token exchange of
    a valid callback fulfils it when it succeeds and rejects it when it
    fails, each with the server closed. *)
Theorem authorization_settles_once_after_close (random : nat -> N) (w0 : World)
    (f0 : Flow) (events : list Event) :
  fst (authorizeSpotify random w0) = Ok f0 ->
  authPromise (fst (run events f0 w0))
  = first_settlement (actions (fst (run events f0 w0)))
  /\ closed_before_settle (actions (fst (run events f0 w0)))
  /\ (forall later w,
        authPromise (fst (run events f0 w0)) <> Pending ->
        authPromise (fst (run later (fst (run events f0 w0)) w))
        = authPromise (fst (run events f0 w0)))
  /\ ((forall msg, ~ In (ServerError msg) events) ->
      authPromise (fst (run events f0 w0)) <> Pending ->
      server (fst (run events f0 w0)) = Closed)
  /\ (server (fst (run events f0 w0)) = Listening ->
      authPromise (fst (run events f0 w0)) = Pending ->
      forall u w,
        is_callback (fst (run events f0 w0)) u ->
        (forall e, get "error" (req_searchParams u) = Some e -> e <> "" ->
           authPromise (fst (step (Incoming (Some u)) (fst (run events f0 w0)) w))
           = Rejected (AuthorizationDenied e)
           /\ server (fst (step (Incoming (Some u)) (fst (run events f0 w0)) w))
              = Closed)
        /\ (missing_or_empty (get "error" (req_searchParams u)) ->
            get "state" (req_searchParams u) <> Some (state (fst (run events f0 w0))) ->
            authPromise (fst (step (Incoming (Some u)) (fst (run events f0 w0)) w))
            = Rejected StateMismatch
            /\ server (fst (step (Incoming (Some u)) (fst (run events f0 w0)) w))
               = Closed)
        /\ (missing_or_empty (get "error" (req_searchParams u)) ->
            get "state" (req_searchParams u) = Some (state (fst (run events f0 w0))) ->
            missing_or_empty (get "code" (req_searchParams u)) ->
            authPromise (fst (step (Incoming (Some u)) (fst (run events f0 w0)) w))
            = Rejected MissingCode
            /\ server (fst (step (Incoming (Some u)) (fst (run events f0 w0)) w))
               = Closed))
  /\ (authPromise (fst (run events f0 w0)) = Pending ->
      forall k reply code w,
        nth_error (awaiting (fst (run events f0 w0))) k = Some code ->
        (forall tokens, exchange_result reply = Ok tokens ->
           authPromise (fst (step (Exchanged k reply) (fst (run events f0 w0)) w))
           = Fulfilled
           /\ server (fst (step (Exchanged k reply) (fst (run events f0 w0)) w))
              = Closed)
        /\ (forall e, exchange_result reply = Throw e ->
            authPromise (fst (step (Exchanged k reply) (fst (run events f0 w0)) w))
            = Rejected e
            /\ server (fst (step (Exchanged k reply) (fst (run events f0 w0)) w))
               = Closed)).
Proof.
  intros H0.
  pose proof (flow_invariant_initial random w0 f0 H0) as Hinv.
  destruct (flow_invariant_run events f0 w0 Hinv) as (Hp & Hc & _).
  apply authorizeSpotify_initial in H0 as (_ & _ & _ & _ & Hp0 & _ & _).
  split; [exact Hp|]. split; [exact Hc|]. split.
  { intros later w Hs. apply run_settled. exact Hs. }
  split.
  { intros Hev. apply settled_closed_run; [exact Hev|]. congruence. }
  split.
  { intros Hs Hpe u w Hu.
    destruct (callback_outcomes _ w u Hs Hpe Hu) as (A & B & C & _).
    split; [exact A|]. split; [exact B|exact C]. }
  intros Hpe k reply code w Hk.
  destruct (exchange_outcomes _ w k reply code Hpe Hk) as (A & B).
  split; [exact A|]. intros e He. destruct (B e He) as (B1 & B2 & _). auto.
Qed.

(** ** The file during a flow *)

Lemma step_constants (ev : Event) (f : Flow) (w : World) :
  state (fst (step ev f w)) = state f
  /\ callbackPath (fst (step ev f w)) = callbackPath f.
Proof.
  destruct (step_effect_of ev f w); simpl; auto.
Qed.

Lemma run_constants (events : list Event) (f : Flow) (w : World) :
  state (fst (run events f w)) = state f
  /\ callbackPath (fst (run events f w)) = callbackPath f.
Proof.
  apply (run_invariant
           (fun f' _ => state f' = state f /\ callbackPath f' = callbackPath f)
           (fun _ => True)); auto.
  intros ev f' w' _ [H1 H2].
  destruct (step_constants ev f' w') as [H3 H4]. split; congruence.
Qed.

(** The file changes in no step but a successful exchange. *)
Lemma step_file (ev : Event) (f : Flow) (w : World) :
  (forall k reply tokens,
     ev = Exchanged k reply -> exchange_result reply <> Ok tokens) ->
  file (snd (step ev f w)) = file w.
Proof.
  intros Hev.
  destruct (step_effect_of ev f w) as
    [ev|Hst|req page Hst|req page e Hst|req code Hst
     |k reply code tokens Hk Hr|k reply code e Hk Hr|msg|ms]; try reflexivity.
  exfalso. apply (Hev k reply tokens eq_refl Hr).
Qed.

(** With no handler suspended, a step that is not a request carrying the
    generated state suspends none and leaves the file as it was. *)
Lemma step_idle (ev : Event) (f : Flow) (w : World) :
  awaiting f = [] ->
  (forall u, ev = Incoming (Some u) ->
     get "state" (req_searchParams u) <> Some (state f)) ->
  awaiting (fst (step ev f w)) = [] /\ file (snd (step ev f w)) = file w.
Proof.
  intros Ha Hev.
  destruct (step_effect_of ev f w) as
    [ev|Hst|req page Hst|req page e Hst|u code Hst Hu
     |k reply code tokens Hk Hr|k reply code e Hk Hr|msg|ms]; simpl; auto.
  - exfalso. apply (Hev u eq_refl Hu).
  - rewrite Ha in Hk. destruct k; discriminate.
  - rewrite Ha in Hk. destruct k; discriminate.
Qed.

Lemma run_idle (events : list Event) (f : Flow) (w : World) :
  awaiting f = [] ->
  (forall u, In (Incoming (Some u)) events ->
     get "state" (req_searchParams u) <> Some (state f)) ->
  file (snd (run events f w)) = file w.
Proof.
  intros Ha Hev.
  apply (run_invariant
           (fun f' w' => awaiting f' = [] /\ state f' = state f /\ file w' = file w)
           (fun ev => forall u, ev = Incoming (Some u) ->
                        get "state" (req_searchParams u) <> Some (state f))); auto.
  - intros ev f' w' HQ (H1 & H2 & H3).
    destruct (step_idle ev f' w' H1) as (H4 & H5).
    { intros u Hu. rewrite H2. apply (HQ u Hu). }
    destruct (step_constants ev f' w') as [H6 _].
    repeat split; congruence.
  - intros ev Hin u ->. apply (Hev u Hin).
Qed.

(** Until the server is closed the file is as it was. *)
Lemma step_open_file (ev : Event) (f : Flow) (w : World) (file0 : option ConfigFile) :
  (server f <> Closed -> file w = file0) ->
  server (fst (step ev f w)) <> Closed -> file (snd (step ev f w)) = file0.
Proof.
  intros H.
  destruct (step_effect_of ev f w) as
    [ev|Hst|req page Hst|req page e Hst|req code Hst
     |k reply code tokens Hk Hr|k reply code e Hk Hr|msg|ms]; simpl;
    try assumption; try congruence; intros _; apply H; congruence.
Qed.

(** A closed server stays closed. *)
Lemma step_closed (ev : Event) (f : Flow) (w : World) :
  server f = Closed -> server (fst (step ev f w)) = Closed.
Proof.
  intros Hs.
  destruct (step_effect_of ev f w); simpl; auto; congruence.
Qed.

Lemma run_closed (events : list Event) (f : Flow) (w : World) :
  server f = Closed -> server (fst (run events f w)) = Closed.
Proof.
  intros Hs.
  apply (run_invariant (fun f' _ => server f' = Closed) (fun _ => True)); auto.
  intros ev f' w' _. apply step_closed.
Qed.

Lemma run_open_file (events : list Event) (f : Flow) (w : World) :
  server (fst (run events f w)) <> Closed ->
  file (snd (run events f w)) = file w.
Proof.
  apply (run_invariant
           (fun f' w' => server f' <> Closed -> file w' = file w)
           (fun _ => True)); auto.
  intros ev f' w' _ HP. apply step_open_file. exact HP.
Qed.

(** C6, amended. For every callback request with a state other than the
    generated one and no [error] parameter, reaching the listener of a flow
    that is pending: the flow fails with [StateMismatch] and stays so whatever
    happens afterwards, the server is closed, and the request itself sends
    nothing and writes nothing, so that the file is still the one the flow
    started with. Afterwards the file stays that one as long as no token
    exchange succeeds; and it does so whatever the token endpoint answers
    when no exchange was outstanding and no later request that reaches the
    handler carries the generated state. *)
Theorem state_mismatch_fails_flow (random : nat -> N) (w0 : World) (f0 : Flow)
    (events later : list Event) (u : RequestUrl) :
  fst (authorizeSpotify random w0) = Ok f0 ->
  server (fst (run events f0 w0)) = Listening ->
  authPromise (fst (run events f0 w0)) = Pending ->
  is_callback f0 u ->
  get "error" (req_searchParams u) = None ->
  get "state" (req_searchParams u) <> Some (state f0) ->
  authPromise (fst (run (events ++ Incoming (Some u) :: later) f0 w0))
  = Rejected StateMismatch
  /\ server (fst (run (events ++ Incoming (Some u) :: later) f0 w0)) = Closed
  /\ snd (run (events ++ [Incoming (Some u)]) f0 w0) = snd (run events f0 w0)
  /\ file (snd (run (events ++ [Incoming (Some u)]) f0 w0)) = file w0
  /\ ((forall k reply tokens,
         In (Exchanged k reply) later -> exchange_result reply <> Ok tokens) ->
      file (snd (run (events ++ Incoming (Some u) :: later) f0 w0)) = file w0)
  /\ (awaiting (fst (run events f0 w0)) = [] ->
      (forall u', In (Incoming (Some u')) later ->
         get "state" (req_searchParams u') <> Some (state f0)) ->
      file (snd (run (events ++ Incoming (Some u) :: later) f0 w0)) = file w0).
Proof.
  intros _ Hs Hp Hu He Hst.
  destruct (run_constants events f0 w0) as [Hstate Hpath].
  assert (Hfile : file (snd (run events f0 w0)) = file w0).
  { apply run_open_file. congruence. }
  rewrite !run_app, !run_cons.
  remember (fst (run events f0 w0)) as f eqn:Ef.
  remember (snd (run events f0 w0)) as w eqn:Ew.
  assert (Hu' : is_callback f u) by (unfold is_callback in *; congruence).
  assert (He' : missing_or_empty (get "error" (req_searchParams u)))
    by (left; exact He).
  destruct (callback_outcomes f w u Hs Hp Hu') as (_ & B & _).
  rewrite <- Hstate in Hst. specialize (B He' Hst). destruct B as [B1 B2].
  assert (B3 : awaiting (fst (step (Incoming (Some u)) f w)) = awaiting f
               /\ snd (step (Incoming (Some u)) f w) = w).
  { unfold step. rewrite Hs. unfold on_request. unfold is_callback in Hu'.
    rewrite Hu', String.eqb_refl, He. simpl truthy_string. cbv iota.
    destruct (get "state" (req_searchParams u)) as [s|]; [|simpl; auto].
    destruct (String.eqb_spec s (state f)) as [->|Hne]; [congruence|simpl; auto]. }
  destruct B3 as [B3 B4].
  destruct (step_constants (Incoming (Some u)) f w) as [B5 _].
  split; [rewrite run_settled; [exact B1|congruence]|].
  split; [apply run_closed; exact B2|].
  split; [cbn [run fst snd]; exact B4|].
  split; [cbn [run fst snd]; rewrite B4; exact Hfile|].
  split.
  - intros Hev. rewrite B4, <- Hfile.
    apply (run_invariant
             (fun _ w' => file w' = file w)
             (fun ev => forall k reply tokens,
                  ev = Exchanged k reply -> exchange_result reply <> Ok tokens));
      [| |reflexivity].
    + intros ev f' w' HQ HP. rewrite (step_file ev f' w' HQ). exact HP.
    + intros ev Hin k reply tokens ->. apply (Hev k reply tokens Hin).
  - intros Ha Hlater. rewrite B4, <- Hfile. apply run_idle.
    + congruence.
    + intros u' Hin. rewrite B5, Hstate. apply (Hlater u' Hin).
Qed.

Lemma exchange_result_lifetime (reply : Reply) (tokens : Tokens) :
  exchange_result reply = Ok tokens -> expires_in tokens <> 0.
Proof.
  unfold exchange_result, response_json. destruct reply as [msg|resp]; [discriminate|].
  destruct (negb (ok resp)); [discriminate|].
  destruct (JSON_token (text resp)) as [msg|data]; [discriminate|].
  intros H. injection H as <-. simpl. unfold or_number.
  destruct (data_expires_in data) as [v|]; [|discriminate].
  destruct (Z.eqb_spec v 0); [discriminate|assumption].
Qed.


Lemma token_result_inv (reply : Reply) (keep : bool) (tokens : Tokens) :
  (if keep then exchange_result reply else refresh_result reply) = Ok tokens ->
  exists response data,
    reply = Resolves response
    /\ 200 <= status response <= 299
    /\ JSON_token (text response) = inr data
    /\ access_token tokens = data_access_token data
    /\ refresh_token tokens = (if keep then data_refresh_token data else None)
    /\ expires_in tokens = or_number (data_expires_in data) 3600.
Proof.
  intros H. destruct reply as [msg|response]; [destruct keep; discriminate|].
  exists response.
  assert (Hok : ok response = true).
  { destruct (ok response) eqn:E; [reflexivity|].
    destruct keep; simpl in H; rewrite E in H; discriminate. }
  unfold exchange_result, refresh_result, response_json in H.
  rewrite Hok in H. cbn [negb] in H.
  destruct (JSON_token (text response)) as [msg|data] eqn:Hd;
    [destruct keep; discriminate|].
  exists data. unfold ok in Hok. apply andb_prop in Hok as [H1 H2].
  apply Z.leb_le in H1, H2.
  split; [reflexivity|]. split; [lia|]. split; [reflexivity|].
  destruct keep; injection H as <-; repeat split.
Qed.

Lemma or_number_nonzero (n : option Z) (default : Z) :
  default <> 0 -> or_number n default <> 0.
Proof.
  intros Hd. unfold or_number. destruct n as [v|]; [|exact Hd].
  destruct (Z.eqb_spec v 0); assumption.
Qed.





(** ** The token pair *)

Lemma paired_step (ev : Event) (f : Flow) (w : World) :
  (forall k reply tokens,
     ev = Exchanged k reply -> exchange_result reply = Ok tokens ->
     paired_tokens tokens) ->
  paired_file (file w) -> paired_file (file (snd (step ev f w))).
Proof.
  intros Hev Hw.
  destruct (step_effect_of ev f w) as
    [ev|Hst|req page Hst|req page e Hst|req code Hst
     |k reply code tokens Hk Hr|k reply code e Hk Hr|msg|ms]; simpl;
    try assumption.
  exact (Hev k reply tokens eq_refl Hr).
Qed.

(** C9, amended. Let [accessToken] and [refreshToken] be both present or
    both absent in the record on file. They still are after any run of
    [getAccessToken], failing or not, provided a successful refresh returns an
    [access_token]; and at every moment of any authorization flow, provided
    each successful token exchange returns both tokens or neither. *)
Theorem token_pair_preserved :
  (forall w,
     paired_file (file w) ->
     (forall c tokens,
        fst (loadSpotifyConfig w) = Ok c ->
        refresh_result (net w (refresh_request c)) = Ok tokens ->
        access_token tokens <> None) ->
     paired_file (file (snd (getAccessToken w))))
  /\ (forall events f w,
       paired_file (file w) ->
       exchanges_return paired_tokens events ->
       paired_file (file (snd (run events f w)))).
Proof.
  split.
  - intros w Hw Hresp.
    destruct (getAccessToken_cases w) as
      [(e & H1 & H2)|[(c & H1 & H2 & H3)|[(c & H1 & H2 & H3 & H4)|(c & H1 & H2 & H3 & H4)]]].
    + rewrite H2. exact Hw.
    + rewrite H3. exact Hw.
    + rewrite H4. exact Hw.
    + rewrite H4. destruct (refresh_result _) as [tokens|e] eqn:Hr; simpl; [|exact Hw].
      left. split; [exact (Hresp c tokens H1 Hr)|].
      apply andb_true_iff in H2 as [_ H2]. apply truthy_string_true in H2.
      destruct H2 as (v & Hv & _). simpl. rewrite Hv. discriminate.
  - intros events f w Hw Hev.
    apply (run_invariant
             (fun _ w' => paired_file (file w'))
             (fun ev => forall k reply tokens,
                  ev = Exchanged k reply -> exchange_result reply = Ok tokens ->
                  paired_tokens tokens)); [| |exact Hw].
    + intros ev f' w' HQ HP. apply paired_step; assumption.
    + intros ev Hin k reply tokens -> Hr. apply (Hev k reply tokens Hin Hr).
Qed.

End Properties.

(** * Examples

    Each theorem above applied in a concrete world, and the inputs on which
    a claim as first stated fails. *)

Section Examples.

#[local] Existing Instance test_runtime.

Lemma present_nonempty_intro (v : string) :
  v <> "" -> present_nonempty (Some v).
Proof. intros H. exists v. split; [reflexivity|exact H]. Defined.

(** A record whose token has expired: one refresh request. A record whose
    token is still valid: the stored token and no request. *)
Lemma getAccessToken_refreshes_iff_stale_example :
  sent (snd (getAccessToken (world_of stale_config (ok_reply body_full))))
  = [refresh_request stale_config]
  /\ fst (getAccessToken (world_of fresh_config (ok_reply body_full)))
     = Ok (Some "A0")
  /\ sent (snd (getAccessToken (world_of fresh_config (ok_reply body_full))))
     = [].
Proof.
  split.
  - apply (proj1 (getAccessToken_refreshes_iff_stale
                    (world_of stale_config (ok_reply body_full)) stale_config
                    eq_refl
                    (present_nonempty_intro "A0" ltac:(discriminate))
                    (present_nonempty_intro "R0" ltac:(discriminate)))).
    right. exists 999. split; [reflexivity|]. right. simpl. lia.
  - assert (H : exists e, Some 2000000 = Some e /\ e <> 0 /\ 1000000 < e).
    { exists 2000000. split; [reflexivity|]. split; [discriminate|lia]. }
    destruct (proj2 (getAccessToken_refreshes_iff_stale
                       (world_of fresh_config (ok_reply body_full)) fresh_config
                       eq_refl
                       (present_nonempty_intro "A0" ltac:(discriminate))
                       (present_nonempty_intro "R0" ltac:(discriminate))) H)
      as (H1 & H2 & _).
    split; assumption.
Defined.

(** C1 as first stated fails here: the record contains both tokens, the
    access token being the empty string, and no [expiresAt];
    [loadSpotifyConfig] returns it, and [getAccessToken] fails with
    [Unauthenticated] without sending any request. *)
Lemma getAccessToken_empty_accessToken_no_refresh :
  fst (loadSpotifyConfig (world_of empty_token_config (ok_reply body_full)))
  = Ok empty_token_config
  /\ accessToken empty_token_config = Some ""
  /\ refreshToken empty_token_config = Some "R0"
  /\ expiresAt empty_token_config = None
  /\ fst (getAccessToken (world_of empty_token_config (ok_reply body_full)))
     = Throw Unauthenticated
  /\ sent (snd (getAccessToken (world_of empty_token_config (ok_reply body_full))))
     = [].
Proof. repeat split. Qed.

(** The pause request answered 204 with no body returns nothing; the album
    lookup answered 404 fails with the status and the body. *)
Lemma spotifyFetch_result_example :
  fst (spotifyFetch "/me/player/pause" (method_options PUT)
         (world_of fresh_config (Resolves {| status := 204; text := "" |})))
  = Ok None
  /\ fst (spotifyFetch "/albums/bad-id" (method_options GET)
            (world_of fresh_config (Resolves {| status := 404; text := "not found" |})))
     = Throw (ApiError 404 "not found").
Proof.
  split.
  - apply (proj2 (spotifyFetch_result
                    (world_of fresh_config (Resolves {| status := 204; text := "" |}))
                    "/me/player/pause" (method_options PUT) (Some "A0")
                    {| status := 204; text := "" |} eq_refl eq_refl)).
    + simpl. lia.
    + reflexivity.
  - apply (proj1 (spotifyFetch_result
                    (world_of fresh_config
                       (Resolves {| status := 404; text := "not found" |}))
                    "/albums/bad-id" (method_options GET) (Some "A0")
                    {| status := 404; text := "not found" |} eq_refl eq_refl)).
    right. simpl. lia.
Defined.

(** The token endpoint answers the refresh with HTTP 400:
    [getAccessToken] fails with [RefreshFailed] and the stale record stays. *)
Lemma refresh_failure_keeps_record_example :
  fst (getAccessToken (world_of stale_config bad_request_reply))
  = Throw RefreshFailed
  /\ file (snd (getAccessToken (world_of stale_config bad_request_reply)))
     = Some (Holds stale_config).
Proof.
  assert (Hstale : expiresAt stale_config = None
                   \/ exists e, expiresAt stale_config = Some e
                                /\ e <= now (world_of stale_config bad_request_reply)).
  { right. exists 999. split; [reflexivity|]. simpl. lia. }
  assert (Hfail : refresh_fails
                    (net (world_of stale_config bad_request_reply)
                       (refresh_request stale_config))).
  { simpl. right. left. lia. }
  destruct (refresh_failure_keeps_record
              (world_of stale_config bad_request_reply) stale_config "A0" "R0"
              eq_refl eq_refl eq_refl Hstale eq_refl Hfail) as (H1 & H2 & _).
  split; assumption.
Defined.

(** Whatever the cache held, the call returns the same. *)
Lemma cachedAccessToken_never_read_example :
  fst (getAccessToken
         (write_cache None (world_of stale_config (ok_reply body_full))))
  = fst (getAccessToken
           (write_cache (Some "cached") (world_of stale_config (ok_reply body_full)))).
Proof.
  apply (proj1 (cachedAccessToken_never_read
                  (world_of stale_config (ok_reply body_full))
                  None (Some "cached"))).
Defined.

(** No file: [ConfigMissing]. A file that does not decode: [ConfigInvalid]
    with the decoder's message. *)
Lemma loadSpotifyConfig_error_taxonomy_example :
  fst (loadSpotifyConfig (test_world None (ok_reply body_full)))
  = Throw ConfigMissing
  /\ fst (loadSpotifyConfig
            (test_world (Some (Malformed "Unexpected end of JSON input"))
               (ok_reply body_full)))
     = Throw (ConfigInvalid "Unexpected end of JSON input").
Proof.
  split.
  - apply (proj2 (proj1 (loadSpotifyConfig_error_taxonomy
                           (test_world None (ok_reply body_full))))).
    reflexivity.
  - apply (proj1 (proj2 (loadSpotifyConfig_error_taxonomy
                           (test_world (Some (Malformed "Unexpected end of JSON input"))
                              (ok_reply body_full))))).
    reflexivity.
Defined.

(** C7 as first stated fails here: the file decodes to a record in which
    none of the three required properties is missing, the client id being the
    empty string, and [loadSpotifyConfig] fails with [ConfigInvalid] instead of
    returning the record. *)
Lemma loadSpotifyConfig_rejects_empty_clientId :
  file (world_of empty_clientId_config (ok_reply body_full))
  = Some (Holds empty_clientId_config)
  /\ clientId empty_clientId_config <> None
  /\ clientSecret empty_clientId_config <> None
  /\ redirectUri empty_clientId_config <> None
  /\ fst (loadSpotifyConfig (world_of empty_clientId_config (ok_reply body_full)))
     = Throw (ConfigInvalid
                "Spotify configuration must include clientId, clientSecret, and redirectUri.")
  /\ fst (loadSpotifyConfig (world_of empty_clientId_config (ok_reply body_full)))
     <> Ok empty_clientId_config.
Proof. repeat split; discriminate. Qed.

(** The volume request: the device, which has no value, is not in the
    URL; there is a bearer header and no content type. *)
Lemma spotifyFetch_request_example :
  exists r,
    sent (snd (spotifyFetch "/me/player/volume" volume_options
                 (world_of fresh_config (Resolves {| status := 204; text := "" |}))))
    = [r]
    /\ url r = "https://api.spotify.com/v1/me/player/volume?volume_percent=50"
    /\ In ("Authorization", "Bearer A0") (headers r)
    /\ ~ (exists v, In ("Content-Type", v) (headers r)).
Proof.
  destruct (spotifyFetch_request
              (world_of fresh_config (Resolves {| status := 204; text := "" |}))
              "/me/player/volume" volume_options (Some "A0") eq_refl)
    as (r & Hsent & _ & _ & Hurl & Hauth & Hbody & _).
  exists r. split; [exact Hsent|]. split.
  - apply Hurl. discriminate.
  - split; [exact Hauth|]. intros H. apply Hbody in H. apply H. reflexivity.
Defined.

(** A refresh that returns a new access token keeps the pair; so does a
    granted authorization that returns both tokens. *)
Lemma token_pair_preserved_example :
  paired_file (file (snd (getAccessToken (world_of stale_config (ok_reply body_full)))))
  /\ forall f,
       paired_file
         (file (snd (run (granted body_full) f
                       (world_of unauthorized_config (ok_reply body_full))))).
Proof.
  split.
  - apply (proj1 token_pair_preserved).
    + left. split; discriminate.
    + intros c tokens _ H. simpl in H. injection H as <-. discriminate.
  - intros f. apply (proj2 token_pair_preserved).
    + right. split; reflexivity.
    + intros k reply tokens Hin H.
      destruct Hin as [Hin|[Hin|[Hin|[Hin|[]]]]]; try discriminate.
      injection Hin as <- <-. simpl in H. injection H as <-.
      left. split; discriminate.
Defined.

(** C9 as first stated fails here. A refresh answered 200 with a body
    that has no [access_token] removes the access token from a record that had
    both tokens; and an authorization whose token response has no
    [refresh_token] leaves a record with an access token only, where there
    was none of the two. *)
Lemma token_pair_broken_by_incomplete_response :
  paired_file (file (world_of stale_config (ok_reply body_invalid_grant)))
  /\ file (snd (getAccessToken (world_of stale_config (ok_reply body_invalid_grant))))
     = Some (Holds (test_config None (Some "R0") (Some 4600000)))
  /\ ~ paired_file
         (file (snd (getAccessToken
                       (world_of stale_config (ok_reply body_invalid_grant)))))
  /\ paired_file (file (world_of unauthorized_config (ok_reply body_access_only)))
  /\ exists f0,
       fst (authorizeSpotify test_random
              (world_of unauthorized_config (ok_reply body_access_only)))
       = Ok f0
       /\ authPromise
            (fst (run (granted body_access_only) f0
                    (world_of unauthorized_config (ok_reply body_access_only))))
          = Fulfilled
       /\ file (snd (run (granted body_access_only) f0
                       (world_of unauthorized_config (ok_reply body_access_only))))
          = Some (Holds (test_config (Some "A2") None (Some 4600250)))
       /\ ~ paired_file
              (file (snd (run (granted body_access_only) f0
                            (world_of unauthorized_config
                               (ok_reply body_access_only))))).
Proof.
  split; [left; split; discriminate|].
  split; [reflexivity|].
  split.
  { intros [[H _]|[_ H]]; [apply H; reflexivity|discriminate]. }
  split; [right; split; reflexivity|].
  eexists. split; [reflexivity|].
  split; [reflexivity|].
  split; [reflexivity|].
  intros [[_ H]|[H _]]; [apply H; reflexivity|discriminate].
Qed.



(** A granted authorization: the promise is fulfilled once, after the
    server was closed; these are the actions, in order. *)
Lemma authorization_settles_once_after_close_example :
  fst (authorizeSpotify test_random
         (world_of unauthorized_config (ok_reply body_full)))
  = Ok test_flow
  /\ actions (fst (run (granted body_full) test_flow
                     (world_of unauthorized_config (ok_reply body_full))))
     = [Open (authorizationUrl test_flow); Respond AuthenticationSuccessful;
        Close; Resolve]
  /\ authPromise (fst (run (granted body_full) test_flow
                         (world_of unauthorized_config (ok_reply body_full))))
     = Fulfilled
  /\ closed_before_settle
       (actions (fst (run (granted body_full) test_flow
                        (world_of unauthorized_config (ok_reply body_full)))))
  /\ server (fst (run (granted body_full) test_flow
                    (world_of unauthorized_config (ok_reply body_full))))
     = Closed.
Proof.
  split; [reflexivity|]. split; [reflexivity|]. split; [reflexivity|].
  destruct (authorization_settles_once_after_close (RT := test_runtime) test_random
              (world_of unauthorized_config (ok_reply body_full)) test_flow
              (granted body_full) ltac:(reflexivity))
    as (_ & Hclosed & _ & Hserver & _).
  split; [exact Hclosed|].
  apply Hserver; [|discriminate].
  intros msg Hin.
  destruct Hin as [Hin|[Hin|[Hin|[Hin|[]]]]]; discriminate.
Defined.

(** A forged callback is the first to reach the listener: the flow fails
    with [StateMismatch] and the server is closed. The valid callback that
    comes later on a connection kept alive starts a token exchange; as long as
    that exchange has not succeeded the file is untouched. *)
Lemma state_mismatch_fails_flow_example :
  fst (authorizeSpotify test_random
         (world_of unauthorized_config (ok_reply body_full)))
  = Ok test_flow
  /\ authPromise
       (fst (run ([Bound] ++ Incoming (Some forged_callback)
                          :: [Tick 10; Incoming (Some valid_callback)])
               test_flow (world_of unauthorized_config (ok_reply body_full))))
     = Rejected StateMismatch
  /\ server
       (fst (run ([Bound] ++ Incoming (Some forged_callback)
                          :: [Tick 10; Incoming (Some valid_callback)])
               test_flow (world_of unauthorized_config (ok_reply body_full))))
     = Closed
  /\ file
       (snd (run ([Bound] ++ Incoming (Some forged_callback)
                          :: [Tick 10; Incoming (Some valid_callback)])
               test_flow (world_of unauthorized_config (ok_reply body_full))))
     = file (world_of unauthorized_config (ok_reply body_full)).
Proof.
  split; [reflexivity|].
  destruct (state_mismatch_fails_flow (RT := test_runtime) test_random
              (world_of unauthorized_config (ok_reply body_full)) test_flow
              [Bound] [Tick 10; Incoming (Some valid_callback)] forged_callback
              ltac:(reflexivity) ltac:(reflexivity) ltac:(reflexivity)
              ltac:(reflexivity) ltac:(reflexivity) ltac:(discriminate))
    as (H1 & H2 & _ & _ & H3 & _).
  split; [exact H1|]. split; [exact H2|].
  apply H3. intros k reply tokens [H|[H|[]]]; discriminate.
Defined.

(** C6 as first stated fails here: the forged callback reaches the
    listener while the token exchange of the valid callback is under way. The
    flow fails with [StateMismatch] and the server is closed, and yet the
    exchange, when it settles, writes the tokens to the file. The same happens
    when the valid callback comes after the forged one, on a connection that
    the closed server keeps serving. *)
Lemma state_mismatch_after_valid_callback_persists_tokens :
  fst (authorizeSpotify test_random
         (world_of unauthorized_config (ok_reply body_full)))
  = Ok test_flow
  /\ is_callback test_flow forged_callback
  /\ get "error" (req_searchParams forged_callback) = None
  /\ get "state" (req_searchParams forged_callback) <> Some (state test_flow)
  /\ authPromise
       (fst (run raced test_flow (world_of unauthorized_config (ok_reply body_full))))
     = Rejected StateMismatch
  /\ server
       (fst (run raced test_flow (world_of unauthorized_config (ok_reply body_full))))
     = Closed
  /\ file (world_of unauthorized_config (ok_reply body_full))
     = Some (Holds unauthorized_config)
  /\ file
       (snd (run raced test_flow (world_of unauthorized_config (ok_reply body_full))))
     = Some (Holds (test_config (Some "A1") (Some "R1") (Some 4600000)))
  /\ authPromise
       (fst (run late_valid test_flow
               (world_of unauthorized_config (ok_reply body_full))))
     = Rejected StateMismatch
  /\ sent
       (snd (run late_valid test_flow
               (world_of unauthorized_config (ok_reply body_full))))
     = [exchange_request "CODE" unauthorized_config]
  /\ file
       (snd (run late_valid test_flow
               (world_of unauthorized_config (ok_reply body_full))))
     = Some (Holds (test_config (Some "A1") (Some "R1") (Some 4600010))).
Proof. repeat split. discriminate. Qed.

End Examples.

(** * Further properties of the utilities *)

Section Further.

Context `{RT : Runtime}.

(** ** [getAccessToken], continued *)

(** X1. When the record that [loadSpotifyConfig] returns lacks a usable
    [accessToken] or a usable [refreshToken] (missing, or the empty string),
    [getAccessToken] fails with [Unauthenticated]; it sends no request, writes
    nothing and leaves the cache alone, whatever [expiresAt] says. *)
Theorem getAccessToken_needs_both_tokens (w : World) (c : SpotifyConfig) :
  fst (loadSpotifyConfig w) = Ok c ->
  missing_or_empty (accessToken c) \/ missing_or_empty (refreshToken c) ->
  getAccessToken w = (Throw Unauthenticated, w).
Proof.
  intros Hl H. apply (getAccessToken_unauthenticated w c Hl).
  unfold missing_or_empty in H. rewrite <- !truthy_string_false in H.
  destruct H as [H|H]; rewrite H; [reflexivity|apply andb_false_r].
Qed.

Lemma refresh_result_success (response : Response) (data : TokenData) :
  200 <= status response <= 299 ->
  JSON_token (text response) = inr data ->
  refresh_result (Resolves response)
  = Ok {| access_token := data_access_token data;
          refresh_token := None;
          expires_in := or_number (data_expires_in data) 3600 |}.
Proof.
  intros [H1 H2] Hd. unfold refresh_result, response_json, ok.
  apply Z.leb_le in H1, H2. rewrite H1, H2, Hd. reflexivity.
Qed.


(** X3. A token freshly obtained is used again: after a refresh that
    returned a non-empty [access_token] with a lifetime that is absent or not
    negative, a second call at the same time returns that token and sends no
    further request. *)
Theorem getAccessToken_reuses_refreshed_token (w : World) (c : SpotifyConfig)
    (response : Response) (data : TokenData) (a : string) :
  fst (loadSpotifyConfig w) = Ok c ->
  present_nonempty (accessToken c) ->
  present_nonempty (refreshToken c) ->
  shouldRefresh c (now w) = true ->
  net w (refresh_request c) = Resolves response ->
  200 <= status response <= 299 ->
  JSON_token (text response) = inr data ->
  data_access_token data = Some a -> a <> "" ->
  (forall n, data_expires_in data = Some n -> 0 <= n) ->
  0 <= now w ->
  fst (getAccessToken (snd (getAccessToken w))) = Ok (Some a)
  /\ sent (snd (getAccessToken (snd (getAccessToken w))))
     = sent (snd (getAccessToken w))
  /\ sent (snd (getAccessToken w)) = (sent w ++ [refresh_request c])%list.
Proof.
  intros Hl Ha Hr Hs Hn Hst Hd Hda Hne Hexp Hnow.
  pose proof (authenticated_of_present c Ha Hr) as Ht.
  pose proof (getAccessToken_authenticated w c Hl Ht) as Hg.
  rewrite Hs, Hn, (refresh_result_success response data Hst Hd) in Hg.
  rewrite Hg. cbn [snd].
  set (c' := refreshed c (now w) _).
  set (w' := write_cache _ _).
  assert (Hl' : fst (loadSpotifyConfig w') = Ok c').
  { pose proof (loadSpotifyConfig_Ok_file w c Hl) as Hf.
    pose proof (proj1 (parse_config_Ok (Holds c) c)) as Hp.
    unfold loadSpotifyConfig in Hl. rewrite Hf in Hl.
    destruct (parse_config (Holds c)) as [c0|e] eqn:E; [|discriminate].
    simpl in Hl. injection Hl as ->. destruct (Hp eq_refl) as (_ & H1 & H2 & H3).
    unfold loadSpotifyConfig, w'. cbn [file write_cache write_file parse_config].
    subst c'. unfold refreshed. cbn [clientId clientSecret redirectUri set_expiresAt set_accessToken].
    rewrite H1, H2, H3. reflexivity. }
  assert (Ht' : truthy_string (accessToken c') && truthy_string (refreshToken c') = true).
  { subst c'. unfold refreshed. cbn [accessToken refreshToken set_expiresAt set_accessToken access_token].
    rewrite Hda, (truthy_string_Some a Hne).
    apply andb_true_iff in Ht as [_ Ht]. rewrite Ht. reflexivity. }
  assert (Hs' : shouldRefresh c' (now w') = false).
  { apply shouldRefresh_false. subst c' w'. unfold refreshed.
    cbn [expiresAt set_expiresAt now write_cache write_file log_request expires_in].
    eexists. split; [reflexivity|].
    assert (0 < or_number (data_expires_in data) 3600).
    { unfold or_number. destruct (data_expires_in data) as [n|]; [|lia].
      specialize (Hexp n eq_refl). destruct (Z.eqb_spec n 0); lia. }
    lia. }
  rewrite (getAccessToken_authenticated w' c' Hl' Ht'), Hs'. cbn [fst snd].
  subst c' w'. unfold refreshed.
  cbn [accessToken set_expiresAt set_accessToken access_token sent write_cache write_file log_request].
  rewrite Hda. repeat split.
Qed.

(** ** [spotifyFetch], continued *)

Lemma spotifyFetch_without_token (w : World) (endpoint : string)
    (options : SpotifyFetchOptions) (e : Error) :
  fst (getAccessToken w) = Throw e ->
  spotifyFetch endpoint options w = (Throw e, snd (getAccessToken w)).
Proof.
  intros H. unfold spotifyFetch, bind.
  destruct (getAccessToken w) as [[tok|e'] w1]; simpl in *; congruence.
Qed.

(** X4. When [getAccessToken] fails, [spotifyFetch] fails with the very
    same error and does nothing more: no request goes to the API. *)
Theorem spotifyFetch_propagates_token_errors (w : World) (endpoint : string)
    (options : SpotifyFetchOptions) (e : Error) :
  fst (getAccessToken w) = Throw e ->
  spotifyFetch endpoint options w = (Throw e, snd (getAccessToken w)).
Proof.
  intros H. rewrite (spotifyFetch_without_token w endpoint options e H).
  reflexivity.
Qed.

(** X5. The requests of one call of [spotifyFetch], in order: at most one
    refresh request, sent only when a record was loaded, and then at most one
    API request, sent exactly when [getAccessToken] returned a token. *)
Theorem spotifyFetch_requests (w : World) (endpoint : string)
    (options : SpotifyFetchOptions) :
  exists refreshes calls,
    sent (snd (spotifyFetch endpoint options w))
    = (sent w ++ refreshes ++ calls)%list
    /\ (refreshes = []
        \/ exists c, fst (loadSpotifyConfig w) = Ok c
                     /\ refreshes = [refresh_request c])
    /\ ((calls = [] /\ exists e, fst (getAccessToken w) = Throw e)
        \/ exists tok, fst (getAccessToken w) = Ok tok
                       /\ calls = [api_request tok endpoint options]).
Proof.
  assert (Hg : exists refreshes,
             sent (snd (getAccessToken w)) = (sent w ++ refreshes)%list
             /\ (refreshes = []
                 \/ exists c, fst (loadSpotifyConfig w) = Ok c
                              /\ refreshes = [refresh_request c])).
  { destruct (getAccessToken_cases w) as
      [(e & H1 & H2)|[(c & H1 & H2 & H3)|[(c & H1 & H2 & H3 & H4)|(c & H1 & H2 & H3 & H4)]]].
    - exists []. rewrite H2, app_nil_r. auto.
    - exists []. rewrite H3, app_nil_r. auto.
    - exists []. rewrite H4, app_nil_r. auto.
    - exists [refresh_request c]. rewrite H4. split; [|eauto].
      destruct (refresh_result _); reflexivity. }
  destruct Hg as (refreshes & Hsent & Hr).
  exists refreshes.
  destruct (fst (getAccessToken w)) as [tok|e] eqn:Hf.
  - exists [api_request tok endpoint options].
    rewrite (spotifyFetch_with_token w endpoint options tok Hf). simpl.
    rewrite Hsent, app_assoc. split; [reflexivity|]. split; [exact Hr|].
    right. exists tok. split; reflexivity.
  - exists []. rewrite (spotifyFetch_without_token w endpoint options e Hf).
    simpl. rewrite Hsent, app_nil_r. split; [reflexivity|]. split; [exact Hr|].
    left. eauto.
Qed.

(** X6. When [fetch] itself rejects (no response at all), [spotifyFetch]
    fails with that error; the request had gone out. *)
Theorem spotifyFetch_network_failure (w : World) (endpoint : string)
    (options : SpotifyFetchOptions) (tok : option string) (msg : string) :
  fst (getAccessToken w) = Ok tok ->
  net w (api_request tok endpoint options) = Rejects msg ->
  fst (spotifyFetch endpoint options w) = Throw (RuntimeError msg)
  /\ sent (snd (spotifyFetch endpoint options w))
     = (sent (snd (getAccessToken w)) ++ [api_request tok endpoint options])%list
  /\ file (snd (spotifyFetch endpoint options w))
     = file (snd (getAccessToken w)).
Proof.
  intros Hg Hn. rewrite (spotifyFetch_with_token w endpoint options tok Hg), Hn.
  repeat split.
Qed.

(** ** [generateRandomString], continued *)

Lemma charAt_alphabet (b : N) :
  exists c,
    String.get (N.to_nat (b mod 62)) alphabet = Some c
    /\ charAt alphabet (N.to_nat (b mod 62)) = String c EmptyString.
Proof.
  assert (H : (N.to_nat (b mod 62) < 62)%nat).
  { pose proof (N.mod_upper_bound b 62). lia. }
  revert H. generalize (N.to_nat (b mod 62)). intros k Hk.
  unfold charAt.
  do 62 (destruct k as [|k]; [eexists; split; reflexivity|]).
  lia.
Qed.

Lemma generateRandomString_from (random : nat -> N) (n start : nat) :
  String.length
    (String.concat ""
       (map (fun i => charAt alphabet (N.to_nat (random i mod 62))) (seq start n)))
  = n
  /\ forall i, (i < n)%nat ->
       String.get i
         (String.concat ""
            (map (fun i => charAt alphabet (N.to_nat (random i mod 62)))
               (seq start n)))
       = String.get (N.to_nat (random (start + i)%nat mod 62)) alphabet.
Proof.
  revert start. induction n as [|n IH]; intros start.
  - split; [reflexivity|]. intros i Hi. lia.
  - destruct (IH (S start)) as [IHl IHg].
    destruct (charAt_alphabet (random start)) as (c & Hc & Hch).
    assert (E : String.concat ""
                  (map (fun i => charAt alphabet (N.to_nat (random i mod 62)))
                     (seq start (S n)))
                = String c
                    (String.concat ""
                       (map (fun i => charAt alphabet (N.to_nat (random i mod 62)))
                          (seq (S start) n)))).
    { cbn [seq map]. destruct n as [|n].
      - cbn [seq map String.concat]. exact Hch.
      - cbn [seq map String.concat]. rewrite Hch. reflexivity. }
    rewrite E. split.
    + simpl. rewrite IHl. reflexivity.
    + intros [|i] Hi.
      * simpl. rewrite Nat.add_0_r. symmetry. exact Hc.
      * simpl String.get. rewrite IHg by lia.
        replace (S start + i)%nat with (start + S i)%nat by lia. reflexivity.
Qed.

(** X8. [generateRandomString(length)] has exactly [length] characters,
    and its character at index [i] is the character of the 62-letter alphabet
    at index [byte i mod 62]; so the result is alphanumeric whatever the
    random bytes are. *)
Theorem generateRandomString_spec (length : nat) (random : nat -> N) :
  String.length (generateRandomString length random) = length
  /\ forall i, (i < length)%nat ->
       String.get i (generateRandomString length random)
       = String.get (N.to_nat (random i mod 62)) alphabet
       /\ exists c, String.get i (generateRandomString length random) = Some c.
Proof.
  unfold generateRandomString.
  destruct (generateRandomString_from random length 0) as [Hl Hg].
  split; [exact Hl|]. intros i Hi. rewrite (Hg i Hi). simpl.
  split; [reflexivity|].
  destruct (charAt_alphabet (random i)) as (c & Hc & _). eauto.
Qed.

(** ** [authorizeSpotify], continued *)

(** X9. [authorizeSpotify] sets up a flow only for a loopback redirect
    URI. A configuration error is passed on as it is; a redirect URI whose
    host is neither [localhost] nor [127.0.0.1] ends the process with exit code
    1; in both cases nothing is written. A flow that is set up has a state of
    16 characters, listens for the path of the redirect URI, [/callback] when
    that path is empty, on its port, 80 when it names none, and has not
    touched the world. *)
Theorem authorizeSpotify_setup (random : nat -> N) (w : World) :
  (forall e, fst (loadSpotifyConfig w) = Throw e ->
     authorizeSpotify random w = (Throw e, w))
  /\ (forall c u,
       fst (loadSpotifyConfig w) = Ok c ->
       new_URL (interpolate (redirectUri c)) = inr u ->
       hostname u <> "localhost" -> hostname u <> "127.0.0.1" ->
       authorizeSpotify random w = (Throw (Exit 1), w))
  /\ (forall f0,
       fst (authorizeSpotify random w) = Ok f0 ->
       snd (authorizeSpotify random w) = w
       /\ String.length (state f0) = 16%nat
       /\ exists u,
            new_URL (interpolate (redirectUri (config f0))) = inr u
            /\ fst (loadSpotifyConfig w) = Ok (config f0)
            /\ (hostname u = "localhost" \/ hostname u = "127.0.0.1")
            /\ callbackPath f0
               = (if nonempty (pathname u) then pathname u else "/callback")
            /\ listenPort f0 = (if nonempty (port u) then port u else "80")).
Proof.
  pose proof (loadSpotifyConfig_world w) as Hw.
  unfold authorizeSpotify, bind, throw, ret.
  destruct (loadSpotifyConfig w) as [[c|e] w']; simpl in Hw; subst w'; cbn [fst].
  - split; [discriminate|]. split.
    + intros c' u Hc Hu H1 H2. injection Hc as <-. rewrite Hu.
      apply String.eqb_neq in H1, H2. rewrite H1, H2. reflexivity.
    + intros f0. destruct (new_URL (interpolate (redirectUri c))) as [msg|u] eqn:Hu;
        [discriminate|].
      destruct (String.eqb_spec (hostname u) "localhost") as [E1|E1];
        destruct (String.eqb_spec (hostname u) "127.0.0.1") as [E2|E2];
        cbn [negb andb fst snd]; try discriminate;
        intros H; injection H as <-; cbn [state config callbackPath listenPort];
        (split; [reflexivity|]);
        (split; [apply (generateRandomString_from random 16 0)|]);
        exists u; rewrite Hu; auto 10.
  - split; [intros e' H; congruence|].
    split; [discriminate|discriminate].
Qed.

(** ** The callback listener, continued *)

(** X10. A request without a URL or for a path other than the callback
    path gets its response and changes nothing else: the promise, the server,
    the suspended handlers, the configuration object and the world stay as
    they were. *)
Theorem other_requests_leave_flow (f : Flow) (w : World)
    (req_url : option RequestUrl) :
  server f = Listening ->
  (req_url = None
   \/ exists u, req_url = Some u /\ req_pathname u <> callbackPath f) ->
  snd (step (Incoming req_url) f w) = w
  /\ authPromise (fst (step (Incoming req_url) f w)) = authPromise f
  /\ server (fst (step (Incoming req_url) f w)) = Listening
  /\ awaiting (fst (step (Incoming req_url) f w)) = awaiting f
  /\ config (fst (step (Incoming req_url) f w)) = config f
  /\ actions (fst (step (Incoming req_url) f w))
     = (actions f
        ++ [Respond (match req_url with
                     | None => NoUrlProvided
                     | Some _ => NotFound
                     end)])%list.
Proof.
  intros Hs H. unfold step. rewrite Hs. unfold on_request.
  destruct H as [->|(u & -> & Hu)].
  - repeat split; assumption.
  - apply String.eqb_neq in Hu. rewrite Hu. repeat split; assumption.
Qed.


(** X12. The flow writes the file only when a token exchange succeeds: a
    run in which no exchange succeeds (denied, forged or incomplete callbacks,
    exchanges that fail, server errors) leaves the file exactly as it was. *)
Theorem flow_writes_only_on_successful_exchange (events : list Event)
    (f : Flow) (w : World) :
  (forall k reply tokens,
     In (Exchanged k reply) events -> exchange_result reply <> Ok tokens) ->
  file (snd (run events f w)) = file w.
Proof.
  intros Hev.
  apply (run_invariant
           (fun _ w' => file w' = file w)
           (fun ev => forall k reply tokens,
                ev = Exchanged k reply -> exchange_result reply <> Ok tokens));
    [| |reflexivity].
  - intros ev f' w' HQ HP. rewrite (step_file ev f' w' HQ). exact HP.
  - intros ev Hin k reply tokens ->. apply (Hev k reply tokens Hin).
Qed.

Lemma settle_Fulfilled_inv (outcome p : Promise) :
  settle outcome p = Fulfilled -> p = Fulfilled \/ outcome = Fulfilled.
Proof. destruct p; simpl; auto. Qed.

(** X13. The flow completes successfully only through a token exchange
    that succeeded: when the promise of a flow that was pending is fulfilled
    after a run, one of the exchanges of that run returned tokens. *)
Theorem fulfilled_only_by_successful_exchange (events : list Event)
    (f : Flow) (w : World) :
  authPromise f = Pending ->
  authPromise (fst (run events f w)) = Fulfilled ->
  exists k reply tokens,
    In (Exchanged k reply) events /\ exchange_result reply = Ok tokens.
Proof.
  revert f w. induction events as [|ev rest IH]; intros f w Hp Hf.
  - simpl in Hf. congruence.
  - rewrite run_cons in Hf.
    destruct (authPromise (fst (step ev f w))) eqn:Hstep.
    + destruct (IH _ _ Hstep Hf) as (k & reply & tokens & Hin & Hr).
      exists k, reply, tokens. split; [right; exact Hin|exact Hr].
    + clear IH Hf.
      destruct (step_effect_of ev f w) as
        [ev|Hst|req page Hst|req page e Hst|req code Hst
         |k reply code tokens Hk Hr|k reply code e Hk Hr|msg|ms];
        simpl in Hstep; try congruence;
        try (rewrite Hp in Hstep; simpl in Hstep; discriminate).
      exists k, reply, tokens. split; [left; reflexivity|exact Hr].
    + rewrite run_settled in Hf by congruence. congruence.
Qed.

(** ** [formatDuration] *)

Lemma padStart_seconds (n : Z) :
  0 <= n <= 60 ->
  padStart (String_of_number n) 2 "0"
  = (if n <? 10 then "0" ++ String_of_number n else String_of_number n)
  /\ String.length (padStart (String_of_number n) 2 "0") = 2%nat.
Proof.
  intros H. rewrite <- (Z2Nat.id n) by lia.
  assert (Hk : (Z.to_nat n <= 60)%nat) by lia.
  revert Hk. generalize (Z.to_nat n). intros k Hk.
  do 61 (destruct k as [|k]; [vm_compute; split; reflexivity|]).
  lia.
Qed.

(** X14. For a duration of a whole number of milliseconds from 0 to
    [MAX_SAFE_INTEGER], [formatDuration] gives the whole minutes, a colon and
    exactly two characters of seconds, the seconds being those of the last
    minute rounded to the nearest (half up). The minute is not carried: from
    59.5 seconds on the seconds read [60], as in [0:60], and only then. *)
Theorem formatDuration_minutes_and_seconds (ms : Z) :
  0 <= ms <= MAX_SAFE_INTEGER ->
  exists seconds,
    seconds = (ms mod 60000 + 500) / 1000
    /\ 0 <= seconds <= 60
    /\ formatDuration ms
       = String_of_number (ms / 60000) ++ ":"
         ++ (if seconds <? 10 then "0" ++ String_of_number seconds
             else String_of_number seconds)
    /\ String.length (padStart (String_of_number seconds) 2 "0") = 2%nat
    /\ (seconds = 60 <-> 59500 <= ms mod 60000).
Proof.
  intros [Hms _]. exists ((ms mod 60000 + 500) / 1000).
  pose proof (Z.mod_pos_bound ms 60000 ltac:(lia)) as Hr.
  assert (Hs : 0 <= (ms mod 60000 + 500) / 1000 <= 60).
  { split; [apply Z.div_pos; lia|].
    assert ((ms mod 60000 + 500) / 1000 < 61); [|lia].
    apply Z.div_lt_upper_bound; lia. }
  destruct (padStart_seconds _ Hs) as [Hpad Hlen].
  split; [reflexivity|]. split; [exact Hs|]. split.
  - unfold formatDuration, toFixed0.
    rewrite Z.rem_mod_nonneg by lia.
    destruct (Z.ltb_spec (ms mod 60000) 0) as [Hneg|_]; [lia|].
    rewrite Hpad. reflexivity.
  - split; [exact Hlen|]. split.
    + intros H.
      assert (60 * 1000 <= ms mod 60000 + 500); [|lia].
      rewrite <- H. rewrite Z.mul_comm. apply Z.mul_div_le. lia.
    + intros H. apply Z.le_antisymm; [apply Hs|].
      apply Z.div_le_lower_bound; lia.
Qed.

(** ** [handleSpotifyRequest] *)

Lemma includes_append (pre s sub : string) :
  includes s sub = true -> includes (pre ++ s) sub = true.
Proof.
  intros H. induction pre as [|c pre IH]; simpl; [exact H|].
  rewrite IH. apply orb_true_r.
Qed.

Lemma looks_like_JSON_error_append (pre s : string) :
  looks_like_JSON_error s = true -> looks_like_JSON_error (pre ++ s) = true.
Proof.
  unfold looks_like_JSON_error. rewrite !orb_true_iff.
  intros [[H|H]|H]; rewrite (includes_append pre s _ H); auto.
Qed.

(** What [handleSpotifyRequest] does with the outcome of its action. *)
Lemma handleSpotifyRequest_outcome {T : Type} (action : M T) (w : World) :
  handleSpotifyRequest action w
  = (match fst (action w) with
     | Ok v => Ok (Some v)
     | Throw e =>
         if looks_like_JSON_error (message e) then Ok None else Throw e
     end, snd (action w)).
Proof.
  unfold handleSpotifyRequest, try_catch, bind, ret, throw, looks_like_JSON_error.
  destruct (action w) as [[v|e] w']; simpl; [reflexivity|].
  destruct (_ || _ || _); reflexivity.
Qed.

(** X15. [handleSpotifyRequest] passes a result on, and it never hides the
    two failures that ask the user to authenticate again: [Unauthenticated]
    and [RefreshFailed] are thrown on as they are, as is every error whose
    message has none of the three JSON phrases. The effects of the action are
    kept in all cases. *)
Theorem handleSpotifyRequest_passes_on {T : Type} (action : M T) (w : World) :
  snd (handleSpotifyRequest action w) = snd (action w)
  /\ (forall v, fst (action w) = Ok v ->
      fst (handleSpotifyRequest action w) = Ok (Some v))
  /\ (forall e, fst (action w) = Throw e ->
      e = Unauthenticated \/ e = RefreshFailed
      \/ looks_like_JSON_error (message e) = false ->
      fst (handleSpotifyRequest action w) = Throw e).
Proof.
  rewrite handleSpotifyRequest_outcome. cbn [fst snd].
  split; [reflexivity|]. split.
  - intros v ->. reflexivity.
  - intros e -> [->|[->|H]]; [reflexivity|reflexivity|].
    rewrite H. reflexivity.
Qed.

(** X16. [handleSpotifyRequest] turns into an absent result, as if the
    call had succeeded, every error whose message has one of the JSON phrases,
    wherever the phrase comes from. Around [spotifyFetch] that is: a
    configuration file that does not decode with such a message (no request is
    sent then), and a response with a status outside 200-299 whose body has
    such a phrase. *)
Theorem handleSpotifyRequest_hides_errors (w : World) (endpoint : string)
    (options : SpotifyFetchOptions) :
  (forall msg,
     file w = Some (Malformed msg) ->
     looks_like_JSON_error msg = true ->
     handleSpotifyRequest (spotifyFetch endpoint options) w = (Ok None, w))
  /\ (forall tok response,
       fst (getAccessToken w) = Ok tok ->
       net w (api_request tok endpoint options) = Resolves response ->
       status response < 200 \/ 299 < status response ->
       looks_like_JSON_error (text response) = true ->
       fst (spotifyFetch endpoint options w)
       = Throw (ApiError (status response) (text response))
       /\ fst (handleSpotifyRequest (spotifyFetch endpoint options) w) = Ok None).
Proof.
  split.
  - intros msg Hf Hm. rewrite handleSpotifyRequest_outcome.
    assert (Hl : fst (loadSpotifyConfig w) = Throw (ConfigInvalid msg)).
    { unfold loadSpotifyConfig. rewrite Hf. reflexivity. }
    pose proof (getAccessToken_load_fails w _ Hl) as Hg.
    rewrite (spotifyFetch_without_token w endpoint options
               (ConfigInvalid msg)) by (rewrite Hg; reflexivity).
    rewrite Hg. cbn [fst snd message].
    rewrite (looks_like_JSON_error_append _ msg Hm). reflexivity.
  - intros tok response Hg Hn Hst Hm.
    assert (Hthrow : fst (spotifyFetch endpoint options w)
                     = Throw (ApiError (status response) (text response))).
    { rewrite (spotifyFetch_with_token w endpoint options tok Hg), Hn.
      cbn [fst]. unfold read_response, ok.
      destruct Hst as [H|H]; apply Z.leb_gt in H; rewrite H;
        rewrite ?andb_false_r; reflexivity. }
    split; [exact Hthrow|].
    rewrite handleSpotifyRequest_outcome. cbn [fst]. rewrite Hthrow.
    cbn [message].
    rewrite (looks_like_JSON_error_append _ _
               (looks_like_JSON_error_append _ _
                  (looks_like_JSON_error_append "): " _ Hm))).
    reflexivity.
Qed.

(** X24. The two calls of the token endpoint. [exchangeCodeForToken] sends
    exactly one request and [refreshAccessToken] exactly one when the record
    has a non-empty refresh token, and none otherwise, failing with
    [No refresh token available]; neither touches the file. Tokens are
    returned only for a response with a 2xx status whose body decodes; their
    lifetime is never 0, and a refresh returns no refresh token. *)
Theorem token_endpoint_calls (code : string) (c : SpotifyConfig) (w : World) :
  (sent (snd (exchangeCodeForToken code c w))
   = (sent w ++ [exchange_request code c])%list
   /\ file (snd (exchangeCodeForToken code c w)) = file w
   /\ forall tokens,
        fst (exchangeCodeForToken code c w) = Ok tokens ->
        expires_in tokens <> 0
        /\ exists response data,
             net w (exchange_request code c) = Resolves response
             /\ 200 <= status response <= 299
             /\ JSON_token (text response) = inr data
             /\ access_token tokens = data_access_token data
             /\ refresh_token tokens = data_refresh_token data)
  /\ (missing_or_empty (refreshToken c) ->
      refreshAccessToken c w = (Throw NoRefreshToken, w))
  /\ (present_nonempty (refreshToken c) ->
      sent (snd (refreshAccessToken c w)) = (sent w ++ [refresh_request c])%list
      /\ file (snd (refreshAccessToken c w)) = file w
      /\ forall tokens,
           fst (refreshAccessToken c w) = Ok tokens ->
           expires_in tokens <> 0
           /\ refresh_token tokens = None
           /\ exists response data,
                net w (refresh_request c) = Resolves response
                /\ 200 <= status response <= 299
                /\ JSON_token (text response) = inr data
                /\ access_token tokens = data_access_token data).
Proof.
  split.
  { rewrite exchangeCodeForToken_split. cbn [fst snd].
    split; [reflexivity|]. split; [reflexivity|].
    intros tokens H.
    destruct (token_result_inv _ true tokens H)
      as (response & data & Hn & Hs & Hd & Ha & Hr & He).
    split; [rewrite He; apply or_number_nonzero; discriminate|].
    exists response, data. repeat split; try assumption; lia. }
  split.
  { intros H. apply truthy_string_false in H.
    unfold refreshAccessToken. rewrite H. reflexivity. }
  intros (r & Hr & Hne).
  rewrite (refreshAccessToken_split c w)
    by (rewrite Hr; apply truthy_string_Some; exact Hne).
  cbn [fst snd]. split; [reflexivity|]. split; [reflexivity|].
  intros tokens H.
  destruct (token_result_inv _ false tokens H)
    as (response & data & Hn & Hs & Hd & Ha & Hrt & He).
  split; [rewrite He; apply or_number_nonzero; discriminate|].
  split; [exact Hrt|].
  exists response, data. repeat split; try assumption; lia.
Qed.

End Further.

(** * Properties of the tool handlers *)

Section FurtherTools.

Context `{RT : Runtime}.

Variable object_literal : list (string * Literal) -> object.

(** A computation followed by a fixed result. *)
Lemma then_ret {A B : Type} (m : M A) (r : B) (w : World) :
  (m ;;; ret r) w
  = (match fst (m w) with
     | Ok _ => Ok r
     | Throw e => Throw e
     end, snd (m w)).
Proof.
  unfold bind, ret. destruct (m w) as [[a|e] w']; reflexivity.
Qed.

(** A [try] whose [catch] returns a value never throws. *)
Lemma catch_all {A : Type} (m : M A) (h : Error -> A) (w : World) :
  try_catch m (fun e => ret (h e)) w
  = (Ok (match fst (m w) with
         | Ok a => a
         | Throw e => h e
         end), snd (m w)).
Proof.
  unfold try_catch, ret. destruct (m w) as [[a|e] w']; reflexivity.
Qed.

Lemma spotifyFetch_sent (w : World) (endpoint : string)
    (options : SpotifyFetchOptions) (tok : option string) :
  fst (getAccessToken w) = Ok tok ->
  sent (snd (spotifyFetch endpoint options w))
  = (sent (snd (getAccessToken w)) ++ [api_request tok endpoint options])%list.
Proof.
  intros Hg. rewrite (spotifyFetch_with_token w endpoint options tok Hg).
  reflexivity.
Qed.


Lemma names_no_item_refused (args : PlayArgs) :
  missing_or_empty (arg_uri args) ->
  arg_type args = None \/ missing_or_empty (arg_id args) ->
  truthy_string (arg_uri args)
  || (match arg_type args with Some _ => true | None => false end
      && truthy_string (arg_id args)) = false.
Proof.
  intros Hu H. apply truthy_string_false in Hu. rewrite Hu. simpl.
  destruct H as [->|H]; [reflexivity|].
  apply truthy_string_false in H. rewrite H. apply andb_false_r.
Qed.


(** X17. [playMusic] and [addToQueue] refuse the same arguments in the
    same way: without a non-empty [uri], and without a [type] together with a
    non-empty [id], each returns the error text flagged [isError], sends
    nothing and changes nothing. *)
Theorem play_and_queue_refuse_unnamed_item (args : PlayArgs) (w : World) :
  missing_or_empty (arg_uri args) ->
  arg_type args = None \/ missing_or_empty (arg_id args) ->
  playMusic object_literal args w = (Ok missing_uri_result, w)
  /\ addToQueue args w = (Ok missing_uri_result, w)
  /\ result_isError missing_uri_result = true.
Proof.
  intros Hu H. split; [|split; [|reflexivity]].
  - unfold playMusic. rewrite (names_no_item_refused args Hu H). reflexivity.
  - unfold addToQueue, spotifyUri_of.
    pose proof Hu as Hu'. apply truthy_string_false in Hu'. rewrite Hu'.
    destruct H as [->|H].
    + simpl. rewrite Hu'. reflexivity.
    + apply truthy_string_false in H. rewrite H, andb_false_r. rewrite Hu'.
      reflexivity.
Qed.



(** [Math.round] keeps a percentage a percentage. *)
Lemma Math_round_percent (x : Q) :
  (0 <= x)%Q -> (x <= 100)%Q -> 0 <= Math_round x <= 100.
Proof.
  intros H0 H100. unfold Math_round. split.
  - change 0 with (Qfloor (0 + (1 # 2))).
    apply Qfloor_resp_le. apply Qplus_le_compat; [exact H0|apply Qle_refl].
  - change 100 with (Qfloor (100 + (1 # 2))).
    apply Qfloor_resp_le. apply Qplus_le_compat; [exact H100|apply Qle_refl].
Qed.

Lemma Math_round_integer (n : Z) : Math_round (inject_Z n) = n.
Proof.
  unfold Math_round, Qfloor. simpl.
  replace (n * 2 + 1) with (1 + n * 2) by ring.
  rewrite Z.div_add by lia. reflexivity.
Qed.

(** X20. [setVolume] never throws: an error of [spotifyFetch] comes back
    as text. Once it has a token it sends one request [PUT /me/player/volume]
    without a body whose [volume_percent] is the volume rounded to the nearest
    integer: an integer volume as it is, and a volume between 0 and 100 as an
    integer between 0 and 100. *)
Theorem setVolume_sends_rounded_percentage (volumePercent : Q)
    (deviceId : option string) (w : World) :
  (exists text, fst (setVolume volumePercent deviceId w) = Ok (text_result text))
  /\ (forall e,
       fst (spotifyFetch "/me/player/volume"
              {| opt_method := Some PUT;
                 opt_body := None;
                 opt_params :=
                   Some (("volume_percent", Some (PNumber (Math_round volumePercent)))
                         :: device_entries deviceId) |} w) = Throw e ->
       fst (setVolume volumePercent deviceId w)
       = Ok (text_result ("Error setting volume: " ++ message e)))
  /\ (forall tok,
       fst (getAccessToken w) = Ok tok ->
       sent (snd (setVolume volumePercent deviceId w))
       = (sent (snd (getAccessToken w))
          ++ [api_request tok "/me/player/volume"
                {| opt_method := Some PUT;
                   opt_body := None;
                   opt_params :=
                     Some (("volume_percent",
                            Some (PNumber (Math_round volumePercent)))
                           :: device_entries deviceId) |}])%list)
  /\ ((0 <= volumePercent)%Q -> (volumePercent <= 100)%Q ->
      0 <= Math_round volumePercent <= 100)
  /\ (forall n, volumePercent = inject_Z n -> Math_round volumePercent = n)
  /\ (inject_Z (Math_round volumePercent) <= volumePercent + (1 # 2))%Q
  /\ (volumePercent + (1 # 2) < inject_Z (Math_round volumePercent + 1))%Q.
Proof.
  unfold setVolume. rewrite catch_all, then_ret. cbn [fst snd].
  split.
  { destruct (fst (spotifyFetch _ _ w)); eauto. }
  split.
  { intros e ->. reflexivity. }
  split.
  { intros tok Hg. apply (spotifyFetch_sent w _ _ tok Hg). }
  split; [apply Math_round_percent|].
  split; [intros n ->; apply Math_round_integer|].
  split; [apply Qfloor_le|apply Qlt_floor].
Qed.




(** The URL of a request that has at most a device parameter. *)
Lemma device_url (endpoint : string) (deviceId : option string) :
  (missing_or_empty deviceId ->
   request_url endpoint (device_params deviceId) = SPOTIFY_API_BASE ++ endpoint)
  /\ (forall d, deviceId = Some d -> d <> "" ->
      request_url endpoint (device_params deviceId)
      = (SPOTIFY_API_BASE ++ endpoint) ++ "?"
        ++ urlencode "device_id" ++ "=" ++ urlencode d).
Proof.
  unfold device_params. split.
  - intros H. apply truthy_string_false in H. rewrite H. reflexivity.
  - intros d -> Hne. rewrite (truthy_string_Some d Hne).
    rewrite request_url_present. reflexivity.
Qed.

(** X23. The four playback commands each send, once there is a token, one
    request without a body: [PUT /me/player/pause], [POST /me/player/next],
    [POST /me/player/previous] and [PUT /me/player/play]. A [deviceId] that is
    missing or empty leaves the URL without a query string; a non-empty one
    adds [device_id]. None of the four catches: each throws the error of its
    [spotifyFetch], and returns its text when [spotifyFetch] returns. *)
Theorem playback_commands (deviceId : option string) (w : World)
    (tok : option string) :
  fst (getAccessToken w) = Ok tok ->
  let options m :=
    {| opt_method := Some m; opt_body := None;
       opt_params := device_params deviceId |} in
  (forall endpoint m,
     headers (api_request tok endpoint (options m))
     = [("Authorization", "Bearer " ++ interpolate tok)]
     /\ body (api_request tok endpoint (options m)) = NoBody
     /\ method (api_request tok endpoint (options m)) = m
     /\ (missing_or_empty deviceId ->
         url (api_request tok endpoint (options m)) = SPOTIFY_API_BASE ++ endpoint)
     /\ (forall d, deviceId = Some d -> d <> "" ->
         url (api_request tok endpoint (options m))
         = (SPOTIFY_API_BASE ++ endpoint) ++ "?"
           ++ urlencode "device_id" ++ "=" ++ urlencode d))
  /\ (sent (snd (pausePlayback deviceId w))
      = (sent (snd (getAccessToken w))
         ++ [api_request tok "/me/player/pause" (options PUT)])%list
      /\ (forall e,
            fst (spotifyFetch "/me/player/pause" (options PUT) w) = Throw e ->
            fst (pausePlayback deviceId w) = Throw e)
      /\ (forall v,
            fst (spotifyFetch "/me/player/pause" (options PUT) w) = Ok v ->
            fst (pausePlayback deviceId w) = Ok (text_result "Playback paused")))
  /\ (sent (snd (skipToNext deviceId w))
      = (sent (snd (getAccessToken w))
         ++ [api_request tok "/me/player/next" (options POST)])%list
      /\ (forall e,
            fst (spotifyFetch "/me/player/next" (options POST) w) = Throw e ->
            fst (skipToNext deviceId w) = Throw e)
      /\ (forall v,
            fst (spotifyFetch "/me/player/next" (options POST) w) = Ok v ->
            fst (skipToNext deviceId w)
            = Ok (text_result "Skipped to next track")))
  /\ (sent (snd (skipToPrevious deviceId w))
      = (sent (snd (getAccessToken w))
         ++ [api_request tok "/me/player/previous" (options POST)])%list
      /\ (forall e,
            fst (spotifyFetch "/me/player/previous" (options POST) w) = Throw e ->
            fst (skipToPrevious deviceId w) = Throw e)
      /\ (forall v,
            fst (spotifyFetch "/me/player/previous" (options POST) w) = Ok v ->
            fst (skipToPrevious deviceId w)
            = Ok (text_result "Skipped to previous track")))
  /\ (sent (snd (resumePlayback deviceId w))
      = (sent (snd (getAccessToken w))
         ++ [api_request tok "/me/player/play" (options PUT)])%list
      /\ (forall e,
            fst (spotifyFetch "/me/player/play" (options PUT) w) = Throw e ->
            fst (resumePlayback deviceId w) = Throw e)
      /\ (forall v,
            fst (spotifyFetch "/me/player/play" (options PUT) w) = Ok v ->
            fst (resumePlayback deviceId w) = Ok (text_result "Playback resumed"))).
Proof.
  intros Hg options. subst options. cbv beta. split.
  { intros endpoint m. split; [reflexivity|]. split; [reflexivity|].
    split; [reflexivity|]. apply device_url. }
  unfold pausePlayback, skipToNext, skipToPrevious, resumePlayback.
  rewrite !then_ret. cbn [fst snd].
  rewrite !(spotifyFetch_sent w _ _ tok Hg).
  repeat split; intros x ->; reflexivity.
Qed.

End FurtherTools.

(** * Examples of the further properties *)

Section FurtherExamples.

#[local] Existing Instance test_runtime.

(** A record without tokens: [Unauthenticated], and the world is as it was. *)
Lemma getAccessToken_needs_both_tokens_example :
  getAccessToken (world_of unauthorized_config (ok_reply body_full))
  = (Throw Unauthenticated, world_of unauthorized_config (ok_reply body_full)).
Proof.
  apply (getAccessToken_needs_both_tokens (RT := test_runtime)
           (world_of unauthorized_config (ok_reply body_full))
           unauthorized_config ltac:(reflexivity)).
  left. left. reflexivity.
Defined.


(** After that refresh a second call returns the new token and sends
    nothing more. *)
Lemma getAccessToken_reuses_refreshed_token_example :
  fst (getAccessToken
         (snd (getAccessToken (world_of stale_config (ok_reply body_full)))))
  = Ok (Some "A1")
  /\ sent (snd (getAccessToken
                  (snd (getAccessToken (world_of stale_config (ok_reply body_full))))))
     = [refresh_request stale_config].
Proof.
  destruct (getAccessToken_reuses_refreshed_token (RT := test_runtime)
              (world_of stale_config (ok_reply body_full)) stale_config
              {| status := 200; text := body_full |} data_full "A1"
              ltac:(reflexivity)
              (present_nonempty_intro "A0" ltac:(discriminate))
              (present_nonempty_intro "R0" ltac:(discriminate))
              ltac:(reflexivity) ltac:(reflexivity)
              ltac:(simpl; lia) ltac:(reflexivity)
              ltac:(reflexivity) ltac:(discriminate)
              ltac:(intros n H; injection H as <-; lia)
              ltac:(simpl; lia))
    as (H1 & H2 & H3).
  split; [exact H1|]. rewrite H2. exact H3.
Defined.

(** Without tokens on file a Web API call fails as [getAccessToken] does. *)
Lemma spotifyFetch_propagates_token_errors_example :
  spotifyFetch "/me/player" (method_options GET)
    (world_of unauthorized_config (ok_reply body_full))
  = (Throw Unauthenticated, world_of unauthorized_config (ok_reply body_full)).
Proof.
  apply (spotifyFetch_propagates_token_errors (RT := test_runtime)
           (world_of unauthorized_config (ok_reply body_full))
           "/me/player" (method_options GET) Unauthenticated
           ltac:(reflexivity)).
Defined.

(** A call with a valid token on file: no refresh, one request. *)
Lemma spotifyFetch_requests_example :
  exists refreshes calls,
    sent (snd (spotifyFetch "/me/player/pause" (method_options PUT) player_world))
    = (sent player_world ++ refreshes ++ calls)%list
    /\ (length refreshes <= 1)%nat /\ (length calls <= 1)%nat.
Proof.
  destruct (spotifyFetch_requests (RT := test_runtime) player_world
              "/me/player/pause" (method_options PUT))
    as (refreshes & calls & Hsent & Hr & Hc).
  exists refreshes, calls. split; [exact Hsent|]. split.
  - destruct Hr as [->|(c & _ & ->)]; simpl; lia.
  - destruct Hc as [(-> & _)|(tok & _ & ->)]; simpl; lia.
Defined.

(** The network is down: the call fails with the message of [fetch]. *)
Lemma spotifyFetch_network_failure_example :
  fst (spotifyFetch "/me/player/pause" (method_options PUT)
         (world_of fresh_config (Rejects "fetch failed")))
  = Throw (RuntimeError "fetch failed").
Proof.
  apply (spotifyFetch_network_failure (RT := test_runtime)
           (world_of fresh_config (Rejects "fetch failed"))
           "/me/player/pause" (method_options PUT) (Some "A0") "fetch failed"
           ltac:(reflexivity) ltac:(reflexivity)).
Defined.

(** Sixteen characters from random bytes that are all zero. *)
Lemma generateRandomString_spec_example :
  String.length (generateRandomString 16 test_random) = 16%nat
  /\ String.get 3 (generateRandomString 16 test_random) = Some "A"%char.
Proof.
  destruct (generateRandomString_spec 16 test_random) as (Hlen & Hget).
  split; [exact Hlen|].
  destruct (Hget 3%nat ltac:(lia)) as (H & _). rewrite H. reflexivity.
Defined.

(** The flow set up for the redirect URI [http://127.0.0.1:8888/callback]. *)
Lemma authorizeSpotify_setup_example :
  String.length (state test_flow) = 16%nat
  /\ snd (authorizeSpotify test_random
            (world_of unauthorized_config (ok_reply body_full)))
     = world_of unauthorized_config (ok_reply body_full).
Proof.
  destruct (proj2 (proj2 (authorizeSpotify_setup (RT := test_runtime) test_random
                            (world_of unauthorized_config (ok_reply body_full))))
              test_flow ltac:(reflexivity))
    as (Hw & Hlen & _).
  split; [exact Hlen|exact Hw].
Defined.

(** A request for the favicon is answered [Not found]; the flow goes on. *)
Lemma other_requests_leave_flow_example :
  server (fst (step (Incoming (Some favicon_request)) listening_flow
                 (world_of unauthorized_config (ok_reply body_full))))
  = Listening
  /\ authPromise (fst (step (Incoming (Some favicon_request)) listening_flow
                         (world_of unauthorized_config (ok_reply body_full))))
     = Pending
  /\ actions (fst (step (Incoming (Some favicon_request)) listening_flow
                     (world_of unauthorized_config (ok_reply body_full))))
     = [Open (authorizationUrl test_flow); Respond NotFound].
Proof.
  destruct (other_requests_leave_flow (RT := test_runtime) listening_flow
              (world_of unauthorized_config (ok_reply body_full))
              (Some favicon_request) ltac:(reflexivity)
              ltac:(right; exists favicon_request;
                    split; [reflexivity|discriminate]))
    as (_ & Hp & Hs & _ & _ & Ha).
  split; [exact Hs|]. split; [exact Hp|exact Ha].
Defined.


(** The token endpoint refuses the exchange: the file is as it was. *)
Lemma flow_writes_only_on_successful_exchange_example :
  file (snd (run refused test_flow (world_of unauthorized_config bad_request_reply)))
  = Some (Holds unauthorized_config).
Proof.
  apply (flow_writes_only_on_successful_exchange (RT := test_runtime) refused
           test_flow (world_of unauthorized_config bad_request_reply)).
  intros k reply tokens Hin.
  destruct Hin as [Hin|[Hin|[Hin|[]]]]; try discriminate.
  injection Hin as <- <-. discriminate.
Defined.

(** The fulfilled flow of a granted authorization had a successful exchange. *)
Lemma fulfilled_only_by_successful_exchange_example :
  exists k reply tokens,
    In (Exchanged k reply) (granted body_full)
    /\ exchange_result reply = Ok tokens.
Proof.
  apply (fulfilled_only_by_successful_exchange (RT := test_runtime)
           (granted body_full) test_flow
           (world_of unauthorized_config (ok_reply body_full))
           ltac:(reflexivity) ltac:(reflexivity)).
Defined.

(** Three minutes and 35.5 seconds read [3:36]; half a second short of two
    minutes reads [1:60]. *)
Lemma formatDuration_minutes_and_seconds_example :
  formatDuration 215500 = "3:36" /\ formatDuration 119500 = "1:60".
Proof.
  split.
  - destruct (formatDuration_minutes_and_seconds 215500
                ltac:(unfold MAX_SAFE_INTEGER; lia))
      as (seconds & Hs & _ & Hf & _).
    rewrite Hf, Hs. reflexivity.
  - destruct (formatDuration_minutes_and_seconds 119500
                ltac:(unfold MAX_SAFE_INTEGER; lia))
      as (seconds & Hs & _ & Hf & _).
    rewrite Hf, Hs. reflexivity.
Defined.

(** The result of a call that succeeds is passed on; so is the error of a
    record without tokens. *)
Lemma handleSpotifyRequest_passes_on_example :
  fst (handleSpotifyRequest (spotifyFetch "/me/player/pause" (method_options PUT))
         player_world)
  = Ok (Some None)
  /\ fst (handleSpotifyRequest (spotifyFetch "/me/player" (method_options GET))
            (world_of unauthorized_config (ok_reply body_full)))
     = Throw Unauthenticated.
Proof.
  split.
  - apply (proj1 (proj2 (handleSpotifyRequest_passes_on (RT := test_runtime)
                           (spotifyFetch "/me/player/pause" (method_options PUT))
                           player_world))).
    reflexivity.
  - apply (proj2 (proj2 (handleSpotifyRequest_passes_on (RT := test_runtime)
                           (spotifyFetch "/me/player" (method_options GET))
                           (world_of unauthorized_config (ok_reply body_full))))).
    + reflexivity.
    + left. reflexivity.
Defined.

(** A configuration file that is not JSON: the call returns nothing instead
    of failing. *)
Lemma handleSpotifyRequest_hides_errors_example :
  handleSpotifyRequest (spotifyFetch "/me/player" (method_options GET))
    (test_world (Some (Malformed "Unexpected token } in JSON at position 5"))
       (ok_reply body_full))
  = (Ok None,
     test_world (Some (Malformed "Unexpected token } in JSON at position 5"))
       (ok_reply body_full)).
Proof.
  apply (proj1 (handleSpotifyRequest_hides_errors (RT := test_runtime)
                  (test_world (Some (Malformed "Unexpected token } in JSON at position 5"))
                     (ok_reply body_full))
                  "/me/player" (method_options GET))
           "Unexpected token } in JSON at position 5").
  - reflexivity.
  - reflexivity.
Defined.

(** No item named: the error result, and nothing is sent. *)
Lemma play_and_queue_refuse_unnamed_item_example :
  playMusic (RT := tools_runtime) literal_object no_args player_world
  = (Ok missing_uri_result, player_world)
  /\ addToQueue (RT := tools_runtime) no_args player_world
     = (Ok missing_uri_result, player_world).
Proof.
  destruct (play_and_queue_refuse_unnamed_item (RT := tools_runtime)
              literal_object no_args player_world
              ltac:(left; reflexivity) ltac:(left; reflexivity))
    as (H1 & H2 & _).
  split; assumption.
Defined.



(** A volume of 49.5 is sent as 50, and one of 100 as 100. *)
Lemma setVolume_sends_rounded_percentage_example :
  0 <= Math_round (99 # 2) <= 100
  /\ Math_round (inject_Z 100) = 100
  /\ exists text,
       fst (setVolume (RT := tools_runtime) (99 # 2) None player_world)
       = Ok (text_result text).
Proof.
  destruct (setVolume_sends_rounded_percentage (RT := tools_runtime) (99 # 2) None
              player_world) as (Htext & _ & _ & Hrange & _).
  split.
  { apply Hrange; unfold Qle; simpl; lia. }
  split.
  { apply (proj1 (proj2 (proj2 (proj2 (proj2
             (setVolume_sends_rounded_percentage (RT := tools_runtime)
                (inject_Z 100) None player_world)))))).
    reflexivity. }
  exact Htext.
Defined.



(** Pausing the device [D1], and skipping to the next track on it. *)
Lemma playback_commands_example :
  sent (snd (pausePlayback (RT := tools_runtime) (Some "D1") player_world))
  = [api_request (RT := tools_runtime) (Some "A0") "/me/player/pause"
       {| opt_method := Some PUT; opt_body := None;
          opt_params := device_params (Some "D1") |}]
  /\ url (api_request (RT := tools_runtime) (Some "A0") "/me/player/pause"
            {| opt_method := Some PUT; opt_body := None;
               opt_params := device_params (Some "D1") |})
     = "https://api.spotify.com/v1/me/player/pause?device_id=D1"
  /\ fst (skipToNext (RT := tools_runtime) (Some "D1") player_world)
     = Ok (text_result "Skipped to next track").
Proof.
  destruct (playback_commands (RT := tools_runtime) (Some "D1") player_world
              (Some "A0") ltac:(reflexivity))
    as (Hreq & (Hpause & _) & (_ & _ & Hnext) & _).
  split; [exact Hpause|]. split.
  - destruct (Hreq "/me/player/pause" PUT) as (_ & _ & _ & _ & Hurl).
    rewrite (Hurl "D1" ltac:(reflexivity) ltac:(discriminate)). reflexivity.
  - apply (Hnext None). reflexivity.
Defined.

(** The exchange answered with [body_full] returns both tokens and a
    lifetime of an hour; a record without a refresh token is not refreshed. *)
Lemma token_endpoint_calls_example :
  sent (snd (exchangeCodeForToken "CODE" unauthorized_config
               (world_of unauthorized_config (ok_reply body_full))))
  = [exchange_request "CODE" unauthorized_config]
  /\ refreshAccessToken unauthorized_config
       (world_of unauthorized_config (ok_reply body_full))
     = (Throw NoRefreshToken, world_of unauthorized_config (ok_reply body_full))
  /\ forall tokens,
       fst (refreshAccessToken stale_config
              (world_of stale_config (ok_reply body_full))) = Ok tokens ->
       expires_in tokens <> 0.
Proof.
  split.
  { apply (proj1 (proj1 (token_endpoint_calls (RT := test_runtime) "CODE"
                           unauthorized_config
                           (world_of unauthorized_config (ok_reply body_full))))). }
  split.
  { apply (proj1 (proj2 (token_endpoint_calls (RT := test_runtime) "CODE"
                           unauthorized_config
                           (world_of unauthorized_config (ok_reply body_full))))).
    left. reflexivity. }
  intros tokens H.
  destruct (proj2 (proj2 (token_endpoint_calls (RT := test_runtime) "CODE"
                            stale_config
                            (world_of stale_config (ok_reply body_full))))
              (present_nonempty_intro "R0" ltac:(discriminate)))
    as (_ & _ & Hall).
  apply (Hall tokens H).
Defined.

End FurtherExamples.
